(** * fts: an inverted index with AND search

    A shallow embedding of [fts.go] and the properties of its index
    construction ([index.add]), sorted-list [intersection], [index.search]
    and of the control flow of [main].

    Modelling conventions.
    - A Go [[]int] is a [slice]: either the [Nil] slice or an allocated
      slice holding its elements.  The distinction is kept because the
      source tests [ids != nil] and [r == nil].  Document ids are Go [int]s;
      they are only compared and copied, so they are modelled in [Z].
    - Slices are modelled by value (their contents); capacities and the
      sharing of backing arrays are outside the model.  Posting lists made
      by [add] or by a decoder each own their array.
    - A Go run-time panic (indexing an empty slice) is the result [None].
    - [index] is a [map[string][]int]: a [gmap string slice].
    - Text is a [string]; one character of the model stands for one rune of
      the Go string.  The Unicode classes, the case mapping and the Snowball
      stemmer come from libraries outside the repository and are parameters
      of the development. *)

From Stdlib Require Import ZArith Ascii String.
From stdpp Require Import gmap strings list fin_maps sorting.

Local Open Scope Z_scope.

(** ** Slices of ints *)

Inductive slice :=
  | Nil
  | Slice (elts : list Z).

#[global] Instance slice_eq_dec : EqDecision slice.
Proof. solve_decision. Defined.

#[global] Instance slice_inhabited : Inhabited slice := populate Nil.

(** The elements of a slice; [len(s)] is the length of this list. *)
Definition elems (s : slice) : list Z :=
  match s with
  | Nil => []
  | Slice l => l
  end.

(** [append(s, x)]: always an allocated slice. *)
Definition append (s : slice) (x : Z) : slice := Slice (elems s ++ [x]).

(** [s == nil] *)
Definition is_nil (s : slice) : bool :=
  match s with
  | Nil => true
  | Slice _ => false
  end.

(** [s[len(s)-1]]; [None] is the index-out-of-range panic. *)
Definition last_elem (s : slice) : option Z := last (elems s).

(** ** Documents *)

Record document := {
  Title : string;
  URL : string;
  Text : string;
  URLSHA1 : list Z;
  ID : Z
}.

(** ** The index type: [type index map[string][]int] *)

Abbreviation index := (gmap string slice).

(** [idx[token]] without the comma-ok form: the zero value [Nil] for an
    absent key. *)
Definition map_get (idx : index) (token : string) : slice :=
  default Nil (idx !! token).

(** ** [intersection] *)

(** The two-pointer loop.  The arguments are the parts of [a] and [b] from
    the positions [i] and [j] on; the result lists the values appended to
    [r] from there to the end of the loop. *)
Fixpoint intersection_from (a : list Z) : list Z → list Z :=
  fix scan_b (b : list Z) : list Z :=
    match a, b with
    | x :: a', y :: b' =>
        if x <? y then intersection_from a' b
        else if x >? y then scan_b b'
        else x :: intersection_from a' b'
    | _, _ => []
    end.

(** [r := make([]int, 0, maxLen)] is allocated, so the result is never
    [Nil]. *)
Definition intersection (a b : slice) : slice :=
  Slice (intersection_from (elems a) (elems b)).

(** ** [stopwords] *)

Definition stopwords : gset string :=
  list_to_set
    ["a"; "and"; "be"; "have"; "i"; "in"; "of"; "that"; "the"; "to"]%string.

(** [strings.FieldsFunc]: the maximal runs of characters that do not satisfy
    [f].  [cur] is the run being read, in reverse. *)
Definition flush_field (cur : list ascii) : list string :=
  match cur with
  | [] => []
  | _ => [string_of_list_ascii (rev cur)]
  end.

Fixpoint fields_loop (f : ascii → bool) (s : string) (cur : list ascii)
  : list string :=
  match s with
  | EmptyString => flush_field cur
  | String c s' =>
      if f c then flush_field cur ++ fields_loop f s' []
      else fields_loop f s' (c :: cur)
  end.

Definition FieldsFunc (s : string) (f : ascii → bool) : list string :=
  fields_loop f s [].

(** [strings.ToLower], given the lower-case mapping of one character. *)
Fixpoint ToLower (lower : ascii → ascii) (s : string) : string :=
  match s with
  | EmptyString => EmptyString
  | String c s' => String (lower c) (ToLower lower s')
  end.

(** ** The environment of [main]

    [main] calls the operating system, the gob codec and the corpus decoders.
    A [world] fixes what each of these calls answers in one run. *)

Inductive stat_result :=
  | StatOk          (* [err == nil]: the path exists *)
  | StatNotExist    (* [os.IsNotExist(err)] *)
  | StatError.      (* any other error *)

(** What reading the corpus file gives: one of the three errors that
    [loadDocuments] returns, or the documents that the XML decoder
    produced. *)
Inductive corpus_read :=
  | OpenFailed
  | GzipFailed
  | XmlFailed
  | Decoded (docs : list document).

Record world := {
  stat_idx : stat_result;     (* [os.Stat(idxFilename)] *)
  open_idx : bool;            (* [os.Open(idxFilename)] succeeds *)
  decoded : index;            (* what [decoder.Decode(&idx)] leaves in [idx] *)
  decode_failed : bool;       (* [Decode] returns an error *)
  corpus : corpus_read;       (* the corpus file, read and decoded *)
  create_idx : bool;          (* [os.Create(idxFilename)] succeeds *)
  encode_idx : bool           (* [encoder.Encode(idx)] succeeds *)
}.

(** What a run shows, in order. *)
Inductive event :=
  | LogPrintln (msg : string)
  | LogFatal
  | GobEncode (idx : index)
  | FmtPrintln (r : slice).

(** How a run ends: [main] returns, [log.Fatal] exits, or a panic. *)
Inductive exit :=
  | Exit1
  | Panicked.

(** Programs that write events and may stop early. *)
Definition prog (A : Type) : Type := list event * (exit + A).

Definition ret {A} (a : A) : prog A := ([], inr a).

Definition bind {A B} (m : prog A) (f : A → prog B) : prog B :=
  match m with
  | (t, inl e) => (t, inl e)
  | (t, inr a) => let '(t', r) := f a in (t ++ t', r)
  end.

Definition emit (e : event) : prog unit := ([e], inr tt).

(** [panic(err)] *)
Definition panic {A} : prog A := ([], inl Panicked).

(** [log.Fatal(err)] *)
Definition fatal {A} : prog A := ([LogFatal], inl Exit1).

Declare Scope prog_scope.
Delimit Scope prog_scope with prog.
Bind Scope prog_scope with prog.

Notation "x ← m ; k" := (bind m (λ x, k))
  (at level 20, m at level 100, k at level 200, only parsing) : prog_scope.
Notation "m ;; k" := (bind m (λ _, k))
  (at level 100, k at level 200, right associativity, only parsing)
  : prog_scope.

Definition trace {A} (p : prog A) : list event := p.1.
Definition outcome {A} (p : prog A) : exit + A := p.2.

(** The two lines that [main] logs. *)
Definition log_exists : event :=
  LogPrintln "full text search index exists; using...".

Definition log_rebuild : event :=
  LogPrintln "full text search index does not exist; rebuilding...".

Section Fts.

(** [unicode.IsLetter], [unicode.IsNumber], [unicode.ToLower],
    [snowballeng.Stem(_, false)] and the SHA-1 digest of a string. *)
Variable IsLetter IsNumber : ascii → bool.
Variable lower : ascii → ascii.
Variable Stem : string → string.
Variable Sha1Sum : string → list Z.

(** *** The analyzer *)

Definition tokenize (text : string) : list string :=
  FieldsFunc text (λ r, negb (IsLetter r) && negb (IsNumber r)).

Definition lowercaseFilter (tokens : list string) : list string :=
  map (ToLower lower) tokens.

Definition stopwordFilter (tokens : list string) : list string :=
  filter (λ token, token ∉ stopwords) tokens.

Definition stemmerFilter (tokens : list string) : list string :=
  map Stem tokens.

Definition analyze (text : string) : list string :=
  let tokens := tokenize text in
  let tokens := lowercaseFilter tokens in
  let tokens := stopwordFilter tokens in
  let tokens := stemmerFilter tokens in
  tokens.

(** *** [index.add] *)

(** The body of the inner loop for one token of the document with id
    [id]. *)
Definition add_token (id : Z) (idx : index) (token : string) : option index :=
  let ids := map_get idx token in
  if is_nil ids then Some (<[token := append ids id]> idx)
  else
    match last_elem ids with
    | None => None
    | Some x =>
        if x =? id then Some idx
        else Some (<[token := append ids id]> idx)
    end.

Fixpoint add_tokens (id : Z) (idx : index) (tokens : list string)
  : option index :=
  match tokens with
  | [] => Some idx
  | token :: rest =>
      match add_token id idx token with
      | Some idx' => add_tokens id idx' rest
      | None => None
      end
  end.

Definition add_doc (idx : index) (doc : document) : option index :=
  add_tokens (ID doc) idx (analyze (Text doc)).

Fixpoint add (idx : index) (docs : list document) : option index :=
  match docs with
  | [] => Some idx
  | doc :: rest =>
      match add_doc idx doc with
      | Some idx' => add idx' rest
      | None => None
      end
  end.

(** A sequence of [add] calls on the same index. *)
Fixpoint add_calls (idx : index) (calls : list (list document))
  : option index :=
  match calls with
  | [] => Some idx
  | docs :: rest =>
      match add idx docs with
      | Some idx' => add_calls idx' rest
      | None => None
      end
  end.

(** *** [index.search] *)

(** The loop of [search] from the running result [r] over the tokens that
    are left. *)
Fixpoint search_loop (idx : index) (r : slice) (tokens : list string)
  : slice :=
  match tokens with
  | [] => r
  | token :: rest =>
      match idx !! token with
      | Some ids =>
          if is_nil r then search_loop idx ids rest
          else search_loop idx (intersection r ids) rest
      | None => Nil
      end
  end.

Definition search (idx : index) (text : string) : slice :=
  search_loop idx Nil (analyze text).

(** The tokens on which the body of the loop of [search] runs, in order:
    the loop stops after the first token that is not a key. *)
Fixpoint search_visited (idx : index) (tokens : list string) : list string :=
  match tokens with
  | [] => []
  | token :: rest =>
      match idx !! token with
      | Some _ => token :: search_visited idx rest
      | None => [token]
      end
  end.

(** *** [loadDocuments] *)

Definition number_document (i : nat) (d : document) : document :=
  {| Title := Title d; URL := URL d; Text := Text d;
     URLSHA1 := Sha1Sum (URL d); ID := Z.of_nat i |}.

Definition loadDocuments (w : world) : option (list document) :=
  match corpus w with
  | Decoded docs => Some (imap number_document docs)
  | OpenFailed | GzipFailed | XmlFailed => None
  end.

(** *** [main] *)

Definition query : string := "small wild cat".

Definition main (w : world) : prog unit :=
  let idx : index := ∅ in
  (idx ← match stat_idx w with
        | StatOk =>
            emit log_exists;;
            (if open_idx w then ret tt else panic);;
            (* the error that [Decode] returns is dropped *)
            ret (decoded w)
        | StatNotExist =>
            emit log_rebuild;;
            docs ← match loadDocuments w with
                   | Some docs => ret docs
                   | None => fatal
                   end;
            idx ← match add idx docs with
                  | Some idx => ret idx
                  | None => panic
                  end;
            (if create_idx w then ret tt else panic);;
            (if encode_idx w then emit (GobEncode idx) else panic);;
            ret idx
        | StatError => fatal
        end;
  let r := search idx query in
  emit (FmtPrintln r))%prog.

End Fts.

(** * Vocabulary of the properties *)

(** ** Posting lists of an index *)

(** The posting list of a term: empty for a term that is not a key. *)
Definition posting (idx : index) (token : string) : list Z :=
  elems (map_get idx token).

(** Every stored posting list is strictly increasing. *)
Definition increasing_postings (idx : index) : Prop :=
  map_Forall (λ _ ids, Sorted Z.lt (elems ids)) idx.

(** No stored posting list is empty. *)
Definition nonempty_postings (idx : index) : Prop :=
  map_Forall (λ _ ids, elems ids ≠ []) idx.

(** No key is mapped to an allocated slice of length zero, the one value on
    which [add] indexes out of range. *)
Definition no_empty_slice (idx : index) : Prop :=
  map_Forall (λ _ ids, ids ≠ Slice []) idx.

#[global] Instance increasing_postings_dec idx :
  Decision (increasing_postings idx).
Proof. unfold increasing_postings. apply _. Defined.

#[global] Instance nonempty_postings_dec idx : Decision (nonempty_postings idx).
Proof. unfold nonempty_postings. apply _. Defined.

#[global] Instance no_empty_slice_dec idx : Decision (no_empty_slice idx).
Proof. unfold no_empty_slice. apply _. Defined.

(** ** Steps of [add] *)

(** What happened to the entry of [t] between [idx] and [idx']: it was left
    as it is, or [id] was appended to a list that did not end in [id]. *)
Definition token_step (id : Z) (idx idx' : index) (t : string) : Prop :=
  idx' !! t = idx !! t ∨
  (idx' !! t = Some (Slice (posting idx t ++ [id])) ∧
   last (posting idx t) ≠ Some id).

(** Every stored posting list is strictly increasing and bounded by [b]. *)
Definition bounded_postings (b : Z) (idx : index) : Prop :=
  map_Forall (λ _ ids, StronglySorted Z.lt (elems ids) ∧
                       Forall (λ x, x ≤ b) (elems ids)) idx.

(** ** Runs of [main] *)

(** The run printed a query result. *)
Definition query_ran (p : prog unit) : Prop := ∃ r, FmtPrintln r ∈ trace p.

(** The same world, with another answer of [os.Stat]. *)
Definition with_stat (s : stat_result) (w : world) : world :=
  {| stat_idx := s; open_idx := open_idx w; decoded := decoded w;
     decode_failed := decode_failed w; corpus := corpus w;
     create_idx := create_idx w; encode_idx := encode_idx w |}.

(** * An instance on ASCII text

    Used to run the model: on ASCII text [unicode.IsLetter], [IsNumber] and
    [ToLower] are the functions below.  [plural_stem] stands in for the
    Snowball stemmer in the examples, none of which depends on what the
    stemmer computes. *)

Module AsciiText.

Definition between (lo hi : N) (c : ascii) : bool :=
  ((lo <=? N_of_ascii c) && (N_of_ascii c <=? hi))%N.

Definition is_letter (c : ascii) : bool :=
  between 65 90 c || between 97 122 c.

Definition is_number (c : ascii) : bool := between 48 57 c.

Definition to_lower (c : ascii) : ascii :=
  if between 65 90 c then ascii_of_N (N_of_ascii c + 32) else c.

Fixpoint plural_stem (s : string) : string :=
  match s with
  | EmptyString => EmptyString
  | String c EmptyString => if Ascii.eqb c "s" then EmptyString else s
  | String c s' => String c (plural_stem s')
  end.

(** A stand-in for the digest, which no property depends on. *)
Definition no_digest (url : string) : list Z := [].

Definition analyze := analyze is_letter is_number to_lower plural_stem.
Definition add := add is_letter is_number to_lower plural_stem.
Definition add_calls := add_calls is_letter is_number to_lower plural_stem.
Definition search := search is_letter is_number to_lower plural_stem.
Definition main := main is_letter is_number to_lower plural_stem no_digest.

Definition doc (id : Z) (text : string) : document :=
  {| Title := ""; URL := ""; Text := text; URLSHA1 := []; ID := id |}.

(** ** Concrete indexes, documents and worlds *)

(** The index of Scenario 4: "cat" in document 7, "small" in 3, 7, 9. *)
Definition small_cat : index :=
  <["cat" := Slice [7]]> (<["small" := Slice [3; 7; 9]]> ∅).

(** A key mapped to the [nil] slice, before another term in the query.
    No document is in both posting lists, and [search] returns [[1]]. *)
Definition nil_posting : index :=
  <["wild" := Nil]> (<["cat" := Slice [1]]> ∅).

Definition two_calls : list (list document) :=
  [[doc 0 "A donut on a glass plate. Only the donuts.";
    doc 1 "donut is a donut"];
   [doc 4 "glass donuts"]].

Definition donut_doc : document := doc 1 "donut is a donut".

Definition donut_before : index :=
  <["donut" := Slice [0]]> (<["glas" := Slice [0]]> ∅).

Definition donut_after : index :=
  <["i" := Slice [1]]> (<["donut" := Slice [0; 1]]> donut_before).

(** A run in which the index file is absent, the corpus is read, and
    everything else succeeds. *)
Definition absent_world : world :=
  {| stat_idx := StatNotExist; open_idx := true;
     decoded := ∅; decode_failed := false;
     corpus := Decoded [doc 0 "A small wild cat."; doc 0 "Small dogs."];
     create_idx := true; encode_idx := true |}.

Definition absent_index : index :=
  <["small" := Slice [0; 1]]> (<["wild" := Slice [0]]>
    (<["cat" := Slice [0]]> (<["dog" := Slice [1]]> ∅))).

(** The same run, but the index file cannot be created. *)
Definition create_fails : world :=
  {| stat_idx := StatNotExist; open_idx := true;
     decoded := ∅; decode_failed := false;
     corpus := corpus absent_world;
     create_idx := false; encode_idx := true |}.

(** The same run, but the encoder reports an error. *)
Definition encode_fails : world :=
  {| stat_idx := StatNotExist; open_idx := true;
     decoded := ∅; decode_failed := false;
     corpus := corpus absent_world;
     create_idx := true; encode_idx := false |}.

(** The index file exists but cannot be opened. *)
Definition unreadable : world :=
  {| stat_idx := StatOk; open_idx := false;
     decoded := ∅; decode_failed := false;
     corpus := corpus absent_world;
     create_idx := true; encode_idx := true |}.

(** The index file exists and opens, but does not decode: the decoder
    reports an error and leaves the map empty. *)
Definition corrupt : world :=
  {| stat_idx := StatOk; open_idx := true;
     decoded := ∅; decode_failed := true;
     corpus := corpus absent_world;
     create_idx := true; encode_idx := true |}.

(** Three documents, and the index that [add] builds from them. *)
Definition small_docs : list document :=
  [doc 3 "The small dog"; doc 7 "A small cat."; doc 9 "Small."].

Definition small_index : index := <["dog" := Slice [3]]> small_cat.

(** A document with the id of [donut_doc] and one of its terms. *)
Definition donut_again : document := doc 1 "Donut".

End AsciiText.


(** * Properties *)

(** ** Strictly increasing lists *)

(** A posting list is strictly increasing when each element is smaller than
    its successor: [Sorted Z.lt].  Proofs go through [StronglySorted]. *)

Lemma increasing_strongly (l : list Z) :
  Sorted Z.lt l ↔ StronglySorted Z.lt l.
Proof.
  split; [apply Sorted_StronglySorted | apply StronglySorted_Sorted].
  intros x y z; lia.
Qed.

Lemma increasing_NoDup (l : list Z) : StronglySorted Z.lt l → NoDup l.
Proof.
  induction 1 as [|x l _ IH Hx]; constructor; [|done].
  intros Hin. rewrite Forall_forall in Hx. specialize (Hx _ Hin). lia.
Qed.

Lemma increasing_snoc (l : list Z) (x : Z) :
  StronglySorted Z.lt l → Forall (λ y, y < x) l →
  StronglySorted Z.lt (l ++ [x]).
Proof.
  intros Hl Hx. apply StronglySorted_app.
  split_and!; [|done|repeat constructor].
  intros y z Hy ->%list_elem_of_singleton.
  rewrite Forall_forall in Hx. by apply Hx.
Qed.

(** In an increasing list the last element bounds the others. *)
Lemma increasing_last_max (l : list Z) (m : Z) :
  StronglySorted Z.lt l → last l = Some m → Forall (λ y, y ≤ m) l.
Proof.
  intros Hl [l' ->]%last_Some. apply StronglySorted_app in Hl as (Hlt & _ & _).
  apply Forall_app. split; [|by repeat constructor].
  apply Forall_forall. intros y Hy.
  specialize (Hlt y m Hy). rewrite list_elem_of_singleton in Hlt.
  specialize (Hlt eq_refl). lia.
Qed.

(** ** [intersection] *)

Lemma intersection_from_nil_r (a : list Z) : intersection_from a [] = [].
Proof. by destruct a. Qed.

Lemma intersection_from_cons (x y : Z) (a b : list Z) :
  intersection_from (x :: a) (y :: b) =
    if x <? y then intersection_from a (y :: b)
    else if x >? y then intersection_from (x :: a) b
    else x :: intersection_from a b.
Proof. done. Qed.

(** Whatever the inputs, the result picks elements of [a] in their order. *)
Lemma intersection_from_sublist (a b : list Z) :
  intersection_from a b `sublist_of` a.
Proof.
  revert b. induction a as [|x a IHa]; intros b; [by destruct b|].
  induction b as [|y b IHb]; [apply sublist_nil_l|].
  rewrite intersection_from_cons.
  destruct (x <? y); [by apply sublist_cons|].
  destruct (x >? y); [done|]. by apply sublist_skip.
Qed.

Lemma sublist_increasing (l k : list Z) :
  l `sublist_of` k → StronglySorted Z.lt k → StronglySorted Z.lt l.
Proof.
  induction 1 as [|x l k Hs IH|x l k Hs IH]; intros Hk; [done|..].
  - apply StronglySorted_cons in Hk as [Hx Hk]. apply StronglySorted_cons.
    split; [|by apply IH]. rewrite Forall_forall in Hx.
    apply Forall_forall. intros y Hy. apply Hx.
    eapply elem_of_submseteq; [done|]. by apply sublist_submseteq.
  - apply StronglySorted_cons in Hk as [_ Hk]. by apply IH.
Qed.

(** On increasing inputs the result holds exactly the common elements. *)
Lemma intersection_from_elem_of (a b : list Z) (d : Z) :
  StronglySorted Z.lt a → StronglySorted Z.lt b →
  d ∈ intersection_from a b ↔ d ∈ a ∧ d ∈ b.
Proof.
  revert b. induction a as [|x a IHa]; intros b Ha Hb.
  { destruct b; simpl; split;
      [by intros ?%elem_of_nil| |by intros ?%elem_of_nil|];
      by intros [?%elem_of_nil _]. }
  induction b as [|y b IHb].
  { split; [by intros ?%elem_of_nil|by intros [_ ?%elem_of_nil]]. }
  apply StronglySorted_cons in Ha as Hxa. destruct Hxa as [Hx Ha'].
  apply StronglySorted_cons in Hb as Hyb. destruct Hyb as [Hy Hb'].
  rewrite Forall_forall in Hx. rewrite Forall_forall in Hy.
  rewrite intersection_from_cons.
  destruct (Z.ltb_spec x y) as [Hlt|Hge].
  - rewrite IHa by done. split; intros [Hda Hdb]; (split; [|done]).
    + by apply elem_of_cons; right.
    + apply elem_of_cons in Hda as [->|Hda]; [exfalso|done].
      apply elem_of_cons in Hdb as [->|Hdb]; [lia|].
      specialize (Hy _ Hdb). lia.
  - destruct (Z.gtb_spec x y) as [Hgt|Hle].
    + rewrite IHb by done. split; intros [Hda Hdb]; (split; [done|]).
      * by apply elem_of_cons; right.
      * apply elem_of_cons in Hdb as [->|Hdb]; [exfalso|done].
        apply elem_of_cons in Hda as [->|Hda]; [lia|].
        specialize (Hx _ Hda). lia.
    + assert (x = y) as <- by lia. rewrite elem_of_cons, IHa by done. split.
      * intros [->|[Hda Hdb]]; [split; by left|split; by right].
      * intros [Hda Hdb]. apply elem_of_cons in Hda as [->|Hda]; [by left|].
        apply elem_of_cons in Hdb as [->|Hdb]; [by left|by right].
Qed.

Lemma intersection_increasing (a b : slice) :
  StronglySorted Z.lt (elems a) →
  StronglySorted Z.lt (elems (intersection a b)).
Proof. apply sublist_increasing, intersection_from_sublist. Qed.

Lemma intersection_elem_of (a b : slice) (d : Z) :
  StronglySorted Z.lt (elems a) → StronglySorted Z.lt (elems b) →
  d ∈ elems (intersection a b) ↔ d ∈ elems a ∧ d ∈ elems b.
Proof. apply intersection_from_elem_of. Qed.

Lemma posting_lookup (idx : index) (token : string) (ids : slice) :
  idx !! token = Some ids → posting idx token = elems ids.
Proof. unfold posting, map_get. by intros ->. Qed.

Lemma posting_absent (idx : index) (token : string) :
  idx !! token = None → posting idx token = [].
Proof. unfold posting, map_get. by intros ->. Qed.

Lemma nonempty_no_empty_slice (idx : index) :
  nonempty_postings idx → no_empty_slice idx.
Proof. intros H t ids Ht ->. by apply (H t _ Ht). Qed.

(** ** [search] *)

(** The loop from an allocated, increasing running result, when every token
    left is a key: the result is allocated and increasing, and holds the
    ids of the running result that are in every posting list. *)
Lemma search_loop_allocated (idx : index) (tokens : list string) (l : list Z) :
  increasing_postings idx →
  StronglySorted Z.lt l →
  Forall (λ t, is_Some (idx !! t)) tokens →
  ∃ r, search_loop idx (Slice l) tokens = Slice r ∧
       StronglySorted Z.lt r ∧
       ∀ d, d ∈ r ↔ d ∈ l ∧ ∀ t, t ∈ tokens → d ∈ posting idx t.
Proof.
  intros Hidx. revert l. induction tokens as [|t tokens IH]; intros l Hl Hkeys.
  { exists l. split_and!; [done..|]. intros d. split; [|by intros [? _]].
    intros Hd. split; [done|]. by intros t ?%elem_of_nil. }
  apply Forall_cons in Hkeys as [[ids Ht] Hkeys]. simpl. rewrite Ht.
  assert (StronglySorted Z.lt (elems ids)) as Hids
    by (apply increasing_strongly; exact (Hidx t ids Ht)).
  destruct (IH (intersection_from l (elems ids))) as (r & Hr & Hsorted & Hin).
  { apply (intersection_increasing (Slice l) ids Hl). }
  { done. }
  exists r. split_and!; [done..|]. intros d. rewrite Hin.
  rewrite (intersection_from_elem_of l (elems ids) d Hl Hids). split.
  - intros [[Hdl Hdi] Hrest]. split; [done|].
    intros t' [->|Ht']%elem_of_cons; [|by apply Hrest].
    by rewrite (posting_lookup _ _ _ Ht).
  - intros [Hdl Hall]. split_and!; [done| |].
    + rewrite <-(posting_lookup _ _ _ Ht). apply Hall. by left.
    + intros t' Ht'. apply Hall. by right.
Qed.

Section SearchProperties.

Variable IsLetter IsNumber : ascii → bool.
Variable lower : ascii → ascii.
Variable Stem : string → string.

Local Abbreviation analyze := (analyze IsLetter IsNumber lower Stem).
Local Abbreviation search := (search IsLetter IsNumber lower Stem).

(** C1, as amended.  For an index whose posting lists are strictly
    increasing, and a query whose analysis gives at least one term, each
    term being a key of the index that is mapped to an allocated (non-nil)
    posting list, [search] returns an allocated list that is strictly
    increasing, has no duplicates, and holds exactly the ids that are in
    the posting list of every term of the query. *)
Theorem search_intersection (idx : index) (text : string) :
  increasing_postings idx →
  analyze text ≠ [] →
  (∀ t, t ∈ analyze text → ∃ l, idx !! t = Some (Slice l)) →
  ∃ r, search idx text = Slice r ∧
       Sorted Z.lt r ∧ NoDup r ∧
       ∀ d, d ∈ r ↔ ∀ t, t ∈ analyze text → d ∈ posting idx t.
Proof.
  unfold search. intros Hidx Hne Hkeys.
  destruct (analyze text) as [|t tokens]; [done|]. clear Hne.
  destruct (Hkeys t) as [l Ht]; [by left|]. simpl. rewrite Ht. simpl.
  assert (StronglySorted Z.lt l) as Hl
    by (apply increasing_strongly; exact (Hidx t _ Ht)).
  destruct (search_loop_allocated idx tokens l Hidx Hl) as (r & Hr & Hs & Hin).
  { apply Forall_forall. intros t' Ht'.
    destruct (Hkeys t') as [l' ->]; [by right|]. by eexists. }
  exists r. split_and!; [done|by apply increasing_strongly
                        |by apply increasing_NoDup|].
  intros d. rewrite Hin. split.
  - intros [Hdl Hrest] t' [->|Ht']%elem_of_cons; [|by apply Hrest].
    by rewrite (posting_lookup _ _ _ Ht).
  - intros Hall. split.
    + change l with (elems (Slice l)). rewrite <-(posting_lookup _ _ _ Ht).
      apply Hall. by left.
    + intros t' Ht'. apply Hall. by right.
Qed.

(** C4.  If some term of the analyzed query is not a key of the index,
    [search] returns [nil], and the body of its loop runs on no token
    after the first such term. *)
Theorem search_absent_term (idx : index) (text : string) (t : string) :
  t ∈ analyze text →
  idx !! t = None →
  search idx text = Nil ∧
  ∃ before t0 after,
    analyze text = before ++ t0 :: after ∧
    Forall (λ t', is_Some (idx !! t')) before ∧
    idx !! t0 = None ∧
    search_visited idx (analyze text) = before ++ [t0].
Proof.
  unfold search. generalize (analyze text) as tokens.
  intros tokens Hin Hnone.
  assert (∀ r, search_loop idx r tokens = Nil) as Hloop.
  { induction tokens as [|t' tokens IH]; intros r;
      [by apply elem_of_nil in Hin|].
    simpl. destruct (idx !! t') as [ids|] eqn:Ht'; [|done].
    apply elem_of_cons in Hin as [->|Hin]; [congruence|].
    destruct (is_nil r); by apply IH. }
  split; [done|]. clear Hloop.
  induction tokens as [|t' tokens IH]; [by apply elem_of_nil in Hin|].
  simpl. destruct (idx !! t') as [ids|] eqn:Ht'.
  - apply elem_of_cons in Hin as [->|Hin]; [congruence|].
    destruct (IH Hin) as (before & t0 & after & -> & Hbefore & Ht0 & Hvis).
    exists (t' :: before), t0, after. split_and!; [done| |done|].
    + apply Forall_cons. split; [by rewrite Ht'|done].
    + simpl. by rewrite Hvis.
  - exists [], t', tokens. by split_and!.
Qed.

(** C7.  A query whose analysis gives no term makes [search] return the
    [nil] slice, which has no element. *)
Theorem search_no_terms (idx : index) (text : string) :
  analyze text = [] →
  search idx text = Nil ∧ elems (search idx text) = [].
Proof. unfold search. by intros ->. Qed.

(** X19.  A text without any letter or number, the empty text included,
    has no term. *)
Lemma analyze_separators (text : string) :
  Forall (λ c, IsLetter c = false ∧ IsNumber c = false)
         (list_ascii_of_string text) →
  analyze text = [].
Proof.
  intros Hsep. unfold analyze, tokenize, FieldsFunc.
  enough (fields_loop (λ r, negb (IsLetter r) && negb (IsNumber r)) text []
          = []) as -> by done.
  induction text as [|c text IH]; [done|]. simpl in *.
  apply Forall_cons in Hsep as [[-> ->] Hsep]. simpl. by apply IH.
Qed.

End SearchProperties.

(** ** One step of [add]: the inner loop body *)

Lemma add_token_cases (id : Z) (idx idx' : index) (token : string) :
  add_token id idx token = Some idx' →
  (idx' = idx ∧ last (posting idx token) = Some id) ∨
  (idx' = <[token := Slice (posting idx token ++ [id])]> idx ∧
   last (posting idx token) ≠ Some id).
Proof.
  unfold add_token, posting, last_elem, append.
  destruct (map_get idx token) as [|l]; simpl.
  { intros [= <-]. by right. }
  destruct (last l) as [x|] eqn:Hlast; [|done].
  destruct (Z.eqb_spec x id) as [->|Hne]; intros [= <-]; [by left|right].
  split; [done|congruence].
Qed.

(** The step panics exactly on an allocated slice of length zero. *)
Lemma add_token_panics (id : Z) (idx : index) (token : string) :
  add_token id idx token = None ↔ idx !! token = Some (Slice []).
Proof.
  unfold add_token, last_elem, map_get.
  destruct (idx !! token) as [[|l]|] eqn:Hl; simpl; [done| |done].
  destruct (last l) as [x|] eqn:Hlast.
  - split; [by destruct (x =? id)|]. intros [= ->]. done.
  - apply last_None in Hlast as ->. done.
Qed.

Lemma add_token_step (id : Z) (idx idx' : index) (token t : string) :
  add_token id idx token = Some idx' →
  token_step id idx idx' t ∧
  (t = token → last (posting idx' t) = Some id) ∧
  (t ≠ token → idx' !! t = idx !! t).
Proof.
  intros [[-> Hlast]|[-> Hlast]]%add_token_cases.
  { split_and!; [by left|by intros ->|done]. }
  destruct (decide (t = token)) as [->|Hne].
  - split_and!; [|intros _|done].
    + right. by rewrite lookup_insert_eq.
    + unfold posting at 1, map_get. rewrite lookup_insert_eq. simpl.
      apply last_snoc.
    - split_and!; [left| done |intros _]; by rewrite lookup_insert_ne.
Qed.

Lemma add_token_no_empty_slice (id : Z) (idx idx' : index) (token : string) :
  no_empty_slice idx → add_token id idx token = Some idx' →
  no_empty_slice idx'.
Proof.
  intros Hidx [[-> _]|[-> _]]%add_token_cases; [done|].
  apply map_Forall_insert_2; [|done]. intros [= H].
  by destruct (posting idx token).
Qed.

Lemma add_token_returns (id : Z) (idx : index) (token : string) :
  no_empty_slice idx → is_Some (add_token id idx token).
Proof.
  intros Hidx. destruct (add_token id idx token) eqn:Hadd; [by eexists|].
  apply add_token_panics in Hadd. by destruct (Hidx _ _ Hadd).
Qed.

(** ** The inner loop of [add] over the tokens of one document *)

Lemma add_tokens_step (id : Z) (tokens : list string) (idx idx' : index)
    (t : string) :
  add_tokens id idx tokens = Some idx' →
  token_step id idx idx' t ∧
  (t ∈ tokens → last (posting idx' t) = Some id) ∧
  (t ∉ tokens → idx' !! t = idx !! t).
Proof.
  revert idx. induction tokens as [|token tokens IH]; intros idx; simpl.
  { intros [= <-]. split_and!; [by left|by intros ?%elem_of_nil|done]. }
  destruct (add_token id idx token) as [idx1|] eqn:Hstep; [|done].
  intros Hrest. destruct (IH _ Hrest) as (Hts & Hin & Hout).
  destruct (add_token_step id idx idx1 token t Hstep) as (Hts1 & Hin1 & Hout1).
  assert (posting idx1 t = posting idx t ∨ last (posting idx1 t) = Some id)
    as Hp1.
  { destruct Hts1 as [Heq|[Heq _]].
    - left. unfold posting, map_get. by rewrite Heq.
    - right. unfold posting at 1, map_get. rewrite Heq. apply last_snoc. }
  split_and!.
  - destruct Hts as [Heq|[Heq Hlast]].
    + destruct Hts1 as [Heq1|Happ]; [left; congruence|right].
      by rewrite Heq.
    + destruct Hts1 as [Heq1|[Heq1 Hlast1]].
      * right. unfold posting in *. unfold map_get in *.
        rewrite Heq1 in Heq, Hlast. done.
      * destruct Hlast. unfold posting at 1, map_get. rewrite Heq1.
        apply last_snoc.
  - intros [->|Ht]%elem_of_cons; [|by apply Hin].
    destruct Hts as [Heq|[Heq _]].
    + unfold posting, map_get. rewrite Heq. by apply Hin1.
    + unfold posting at 1, map_get. rewrite Heq. apply last_snoc.
  - intros [Hne Hnot]%not_elem_of_cons. rewrite Hout by done. by apply Hout1.
Qed.

Lemma add_tokens_no_empty_slice (id : Z) (tokens : list string)
    (idx idx' : index) :
  no_empty_slice idx → add_tokens id idx tokens = Some idx' →
  no_empty_slice idx'.
Proof.
  revert idx. induction tokens as [|token tokens IH]; intros idx Hidx; simpl.
  { by intros [= <-]. }
  destruct (add_token id idx token) as [idx1|] eqn:Hstep; [|done].
  apply IH. by eapply add_token_no_empty_slice.
Qed.

Lemma add_tokens_returns (id : Z) (tokens : list string) (idx : index) :
  no_empty_slice idx → is_Some (add_tokens id idx tokens).
Proof.
  revert idx. induction tokens as [|token tokens IH]; intros idx Hidx; simpl.
  { by eexists. }
  destruct (add_token_returns id idx token Hidx) as [idx1 Hstep].
  rewrite Hstep. apply IH. by eapply add_token_no_empty_slice.
Qed.

(** A step keeps what was in the posting list, at the front. *)
Lemma token_step_prefix (id : Z) (idx idx' : index) (t : string) :
  token_step id idx idx' t →
  posting idx t `prefix_of` posting idx' t ∧
  (is_Some (idx !! t) → is_Some (idx' !! t)).
Proof.
  intros [Heq|[Heq _]].
  - unfold posting, map_get. by rewrite Heq.
  - unfold posting at 2, map_get. rewrite Heq. simpl. split; [|by eexists].
    by apply prefix_app_r.
Qed.

(** ** Increasing posting lists under [add] *)

Lemma bounded_postings_mono (b b' : Z) (idx : index) :
  b ≤ b' → bounded_postings b idx → bounded_postings b' idx.
Proof.
  intros Hb Hidx t ids Ht. destruct (Hidx t ids Ht) as [Hs Hle].
  split; [done|]. eapply Forall_impl; [done|]. simpl. lia.
Qed.

Lemma bounded_postings_increasing (b : Z) (idx : index) :
  bounded_postings b idx →
  increasing_postings idx ∧ map_Forall (λ _ ids, NoDup (elems ids)) idx.
Proof.
  intros Hidx. split; intros t ids Ht; destruct (Hidx t ids Ht) as [Hs _].
  - by apply increasing_strongly.
  - by apply increasing_NoDup.
Qed.

Lemma add_token_bounded (id : Z) (idx idx' : index) (token : string) :
  bounded_postings id idx → add_token id idx token = Some idx' →
  bounded_postings id idx'.
Proof.
  intros Hidx [[-> _]|[-> Hlast]]%add_token_cases; [done|].
  apply map_Forall_insert_2; [|done]. simpl.
  assert (StronglySorted Z.lt (posting idx token) ∧
          Forall (λ x, x ≤ id) (posting idx token)) as [Hs Hle].
  { unfold posting, map_get. destruct (idx !! token) as [ids|] eqn:Ht.
    - exact (Hidx token ids Ht).
    - simpl. split; constructor. }
  split.
  - apply increasing_snoc; [done|].
    destruct (last (posting idx token)) as [m|] eqn:Hm.
    + pose proof (increasing_last_max _ _ Hs Hm) as Hmax.
      assert (m ≤ id) as Hmid.
      { rewrite Forall_forall in Hle. apply Hle.
        by eapply last_Some_elem_of. }
      assert (m ≠ id) by congruence.
      eapply Forall_impl; [exact Hmax|]. simpl. lia.
    + apply last_None in Hm. rewrite Hm. constructor.
  - apply Forall_app. split; [done|]. repeat constructor. lia.
Qed.

Lemma add_tokens_bounded (id : Z) (tokens : list string) (idx idx' : index) :
  bounded_postings id idx → add_tokens id idx tokens = Some idx' →
  bounded_postings id idx'.
Proof.
  revert idx. induction tokens as [|token tokens IH]; intros idx Hidx; simpl.
  { by intros [= <-]. }
  destruct (add_token id idx token) as [idx1|] eqn:Hstep; [|done].
  apply IH. by eapply add_token_bounded.
Qed.

Section AddProperties.

Variable IsLetter IsNumber : ascii → bool.
Variable lower : ascii → ascii.
Variable Stem : string → string.

Local Abbreviation analyze := (analyze IsLetter IsNumber lower Stem).
Local Abbreviation add_doc := (add_doc IsLetter IsNumber lower Stem).
Local Abbreviation add := (add IsLetter IsNumber lower Stem).
Local Abbreviation add_calls := (add_calls IsLetter IsNumber lower Stem).

(** *** Sequences of calls *)

Lemma add_app (idx : index) (docs1 docs2 : list document) :
  add idx (docs1 ++ docs2) =
    match add idx docs1 with
    | Some idx' => add idx' docs2
    | None => None
    end.
Proof.
  revert idx. induction docs1 as [|doc docs1 IH]; intros idx; [done|].
  simpl. destruct (add_doc idx doc); [apply IH|done].
Qed.

(** Calls in sequence act as one call on the documents in sequence. *)
Lemma add_calls_concat (idx : index) (calls : list (list document)) :
  add_calls idx calls = add idx (concat calls).
Proof.
  revert idx. induction calls as [|docs calls IH]; intros idx; [done|].
  simpl. rewrite add_app. destruct (add idx docs); [apply IH|done].
Qed.

(** *** [add] does not panic on the indexes it builds *)

Lemma add_no_empty_slice (idx : index) (docs : list document) :
  no_empty_slice idx →
  ∃ idx', add idx docs = Some idx' ∧ no_empty_slice idx'.
Proof.
  revert idx. induction docs as [|doc docs IH]; intros idx Hidx; simpl.
  { by exists idx. }
  unfold add_doc.
  destruct (add_tokens_returns (ID doc) (analyze (Text doc)) idx Hidx)
    as [idx1 Hdoc].
  rewrite Hdoc. apply IH. by eapply add_tokens_no_empty_slice.
Qed.

Lemma add_nonempty_postings (idx idx' : index) (docs : list document) :
  nonempty_postings idx → add idx docs = Some idx' →
  nonempty_postings idx'.
Proof.
  revert idx. induction docs as [|doc docs IH]; intros idx Hidx; simpl.
  { by intros [= <-]. }
  unfold add_doc.
  destruct (add_tokens (ID doc) idx (analyze (Text doc))) as [idx1|] eqn:Hdoc;
    [|done].
  apply IH. intros t ids Ht.
  destruct (add_tokens_step _ _ _ _ t Hdoc) as ([Heq|[Heq _]] & _ & _).
  - rewrite Heq in Ht. by apply (Hidx t).
  - rewrite Heq in Ht. injection Ht as <-. simpl. by destruct (posting idx t).
Qed.

(** *** Increasing ids give increasing posting lists *)

Lemma add_bounded (b : Z) (idx : index) (docs : list document) :
  no_empty_slice idx →
  bounded_postings b idx →
  Forall (λ d, b ≤ ID d) docs →
  StronglySorted Z.lt (ID <$> docs) →
  ∃ idx' b', add idx docs = Some idx' ∧ bounded_postings b' idx'.
Proof.
  revert b idx. induction docs as [|doc docs IH]; intros b idx Hne Hidx Hb Hs.
  { by exists idx, b. }
  apply Forall_cons in Hb as [Hb _].
  rewrite fmap_cons in Hs. apply StronglySorted_cons in Hs as [Hlt Hs].
  simpl. unfold add_doc.
  destruct (add_tokens_returns (ID doc) (analyze (Text doc)) idx Hne)
    as [idx1 Hdoc].
  rewrite Hdoc. apply (IH (ID doc)); [| |  |done].
  - by eapply add_tokens_no_empty_slice.
  - eapply add_tokens_bounded; [|done]. by eapply bounded_postings_mono.
  - rewrite Forall_fmap in Hlt. eapply Forall_impl; [exact Hlt|].
    simpl. lia.
Qed.

(** C3.  A sequence of [add] calls on the empty index whose documents,
    taken over all the calls in order, have strictly increasing ids,
    returns an index in which every posting list is strictly increasing
    and free of duplicates. *)
Theorem add_calls_increasing (calls : list (list document)) :
  Sorted Z.lt (ID <$> concat calls) →
  ∃ idx, add_calls ∅ calls = Some idx ∧
         increasing_postings idx ∧
         map_Forall (λ _ ids, NoDup (elems ids)) idx.
Proof.
  intros Hs%increasing_strongly. rewrite add_calls_concat.
  set (docs := concat calls) in *.
  set (b := default 0 (head (ID <$> docs))).
  destruct (add_bounded b ∅ docs) as (idx & b' & Hadd & Hidx);
    [apply map_Forall_empty|apply map_Forall_empty| |done|].
  - subst b. destruct docs as [|doc docs']; [constructor|].
    rewrite fmap_cons in Hs. apply StronglySorted_cons in Hs as [Hlt _].
    simpl. constructor; [lia|]. rewrite Forall_fmap in Hlt.
    eapply Forall_impl; [exact Hlt|]. simpl. lia.
  - exists idx. split; [done|]. by eapply bounded_postings_increasing.
Qed.

(** C9.  Whatever the calls, a sequence of [add] calls on the empty index
    returns an index in which every key has a non-empty posting list. *)
Theorem add_calls_nonempty (calls : list (list document)) :
  ∃ idx, add_calls ∅ calls = Some idx ∧ nonempty_postings idx.
Proof.
  rewrite add_calls_concat.
  destruct (add_no_empty_slice ∅ (concat calls)) as (idx & Hadd & _);
    [apply map_Forall_empty|].
  exists idx. split; [done|].
  eapply add_nonempty_postings; [|done]. apply map_Forall_empty.
Qed.

(** *** What [add] does to each posting list *)

Lemma add_prefix (idx idx' : index) (docs : list document) (t : string) :
  add idx docs = Some idx' →
  posting idx t `prefix_of` posting idx' t ∧
  (is_Some (idx !! t) → is_Some (idx' !! t)).
Proof.
  revert idx. induction docs as [|doc docs IH]; intros idx; simpl.
  { by intros [= <-]. }
  unfold add_doc.
  destruct (add_tokens (ID doc) idx (analyze (Text doc))) as [idx1|] eqn:Hdoc;
    [|done].
  intros Hrest. destruct (IH _ Hrest) as [Hpre Hkey].
  destruct (add_tokens_step _ _ _ _ t Hdoc) as (Hstep & _ & _).
  apply token_step_prefix in Hstep as [Hpre1 Hkey1].
  split; [by etrans|auto].
Qed.

(** C10.  A call of [add] that returns leaves every key in the index, and
    each posting list that was not empty before the call is a prefix of
    the posting list of its term after the call.  The call returns on
    every index that maps no key to an allocated slice of length zero. *)
Theorem add_extends (idx : index) (docs : list document) :
  (∀ idx' t ids,
     add idx docs = Some idx' →
     idx !! t = Some ids → elems ids ≠ [] →
     ∃ ids', idx' !! t = Some ids' ∧ elems ids `prefix_of` elems ids') ∧
  (no_empty_slice idx → is_Some (add idx docs)).
Proof.
  split.
  - intros idx' t ids Hadd Ht _.
    destruct (add_prefix idx idx' docs t Hadd) as [Hpre Hkey].
    destruct Hkey as [ids' Ht']; [by eexists|]. exists ids'. split; [done|].
    by rewrite <-(posting_lookup _ _ _ Ht), <-(posting_lookup _ _ _ Ht').
  - intros Hidx. destruct (add_no_empty_slice idx docs Hidx) as (idx' & -> & _).
    by eexists.
Qed.

(** C6.  Let the id of [D] be in no posting list of [idx].  When
    [add([D])] returns, the id of [D] occurs exactly once in the posting
    list of each term of the analyzed text of [D], however often the term
    occurs there, and in no other posting list.  The call returns on
    every index that maps no key to an allocated slice of length zero. *)
Theorem add_once (idx : index) (D : document) :
  (∀ t, ID D ∉ posting idx t) →
  (∀ idx', add idx [D] = Some idx' →
     (∀ t, t ∈ analyze (Text D) →
           count_occ Z.eq_dec (posting idx' t) (ID D) = 1%nat) ∧
     (∀ t, t ∉ analyze (Text D) → ID D ∉ posting idx' t)) ∧
  (no_empty_slice idx → is_Some (add idx [D])).
Proof.
  intros Hfresh. split.
  - intros idx'. simpl. unfold add_doc.
    destruct (add_tokens (ID D) idx (analyze (Text D))) as [idx1|] eqn:Hdoc;
      [|done].
    intros [= <-]. split; intros t Ht;
      destruct (add_tokens_step _ _ _ _ t Hdoc) as (Hstep & Hin & Hout).
    + specialize (Hin Ht).
      destruct Hstep as [Heq|[Heq _]].
      * destruct (Hfresh t). apply last_Some_elem_of.
        unfold posting, map_get in *. by rewrite <-Heq.
      * unfold posting at 1, map_get. rewrite Heq. simpl.
        rewrite count_occ_app. simpl.
        destruct (Z.eq_dec (ID D) (ID D)) as [_|]; [|done].
        rewrite (proj1 (count_occ_not_In Z.eq_dec (posting idx t) (ID D)));
          [done|].
        rewrite <-list_elem_of_In. apply Hfresh.
    + unfold posting, map_get. rewrite (Hout Ht). apply Hfresh.
  - intros Hidx. destruct (add_no_empty_slice idx [D] Hidx) as (idx' & -> & _).
    by eexists.
Qed.

End AddProperties.

(** ** [main] *)

Section MainProperties.

Variable IsLetter IsNumber : ascii → bool.
Variable lower : ascii → ascii.
Variable Stem : string → string.
Variable Sha1Sum : string → list Z.

Local Abbreviation add := (add IsLetter IsNumber lower Stem).
Local Abbreviation search := (search IsLetter IsNumber lower Stem).
Local Abbreviation loadDocuments := (loadDocuments Sha1Sum).
Local Abbreviation main := (main IsLetter IsNumber lower Stem Sha1Sum).

(** The build of [main] never panics: it starts from the empty map. *)
Lemma main_build_returns (docs : list document) :
  ∃ idx, add ∅ docs = Some idx ∧ nonempty_postings idx.
Proof.
  destruct (add_no_empty_slice IsLetter IsNumber lower Stem ∅ docs)
    as (idx & Hadd & _); [apply map_Forall_empty|].
  exists idx. split; [done|].
  eapply add_nonempty_postings; [|done]. apply map_Forall_empty.
Qed.

(** The run when the index file is absent and the corpus is read. *)
Lemma main_rebuild (w : world) (docs : list document) (idx : index) :
  stat_idx w = StatNotExist →
  loadDocuments w = Some docs →
  add ∅ docs = Some idx →
  main w =
    if create_idx w && encode_idx w
    then ([log_rebuild; GobEncode idx; FmtPrintln (search idx query)], inr tt)
    else ([log_rebuild], inl Panicked).
Proof.
  intros Hstat Hload Hadd. unfold main. cbv zeta.
  rewrite Hstat, Hload. cbn [bind ret emit]. rewrite Hadd.
  by destruct (create_idx w), (encode_idx w).
Qed.

(** The run when the index file exists. *)
Lemma main_load (w : world) :
  stat_idx w = StatOk →
  main w =
    if open_idx w
    then ([log_exists; FmtPrintln (search (decoded w) query)], inr tt)
    else ([log_exists], inl Panicked).
Proof.
  intros Hstat. unfold main. cbv zeta. rewrite Hstat.
  by destruct (open_idx w).
Qed.

(** [main] never reads whether [Decode] reported an error. *)
Lemma main_decode_error_dropped (w w' : world) :
  stat_idx w = stat_idx w' → open_idx w = open_idx w' →
  decoded w = decoded w' → corpus w = corpus w' →
  create_idx w = create_idx w' → encode_idx w = encode_idx w' →
  main w = main w'.
Proof. unfold main, loadDocuments. by intros -> -> -> -> -> ->. Qed.

(** Whatever else happens, the first event tells which path was taken. *)
Lemma main_absent_head (w : world) :
  stat_idx w = StatNotExist → head (trace (main w)) = Some log_rebuild.
Proof.
  intros Hstat. unfold main. cbv zeta. rewrite Hstat.
  destruct (loadDocuments w) as [docs|]; [|reflexivity].
  cbn [bind ret emit].
  destruct (add ∅ docs) as [idx|]; [|reflexivity].
  by destruct (create_idx w), (encode_idx w).
Qed.

(** C5, as amended.  When the index file is absent and the corpus has
    been read and indexed, a failure of the write (the file cannot be
    created, or the encoder reports an error) ends the run in a panic:
    the only event is the log line of the rebuild, and no query result
    is printed. *)
Theorem main_write_failure (w : world) (docs : list document) :
  stat_idx w = StatNotExist →
  loadDocuments w = Some docs →
  create_idx w = false ∨ encode_idx w = false →
  main w = ([log_rebuild], inl Panicked) ∧ ¬ query_ran (main w).
Proof.
  intros Hstat Hload Hfail.
  destruct (main_build_returns docs) as (idx & Hadd & _).
  rewrite (main_rebuild w docs idx Hstat Hload Hadd).
  assert (create_idx w && encode_idx w = false) as ->.
  { destruct Hfail as [-> | ->]; [done|apply andb_false_r]. }
  split; [done|]. intros [r Hr]. unfold trace in Hr. simpl in Hr.
  by apply list_elem_of_singleton in Hr.
Qed.

(** C8, as amended.  When the index file exists, the run takes the load
    path: it encodes no index, it panics before any query if the file
    cannot be opened, and it differs from every run in which the file is
    absent. *)
Theorem main_existing_index (w : world) :
  stat_idx w = StatOk →
  (open_idx w = false →
     main w = ([log_exists], inl Panicked) ∧ ¬ query_ran (main w)) ∧
  (∀ idx, GobEncode idx ∉ trace (main w)) ∧
  (∀ w', stat_idx w' = StatNotExist → main w ≠ main w').
Proof.
  intros Hstat. pose proof (main_load w Hstat) as Hmain. split_and!.
  - intros Hopen. rewrite Hmain, Hopen. split; [done|].
    intros [r Hr]. unfold trace in Hr. simpl in Hr.
    by apply list_elem_of_singleton in Hr.
  - intros idx. rewrite Hmain. unfold trace.
    destruct (open_idx w); simpl; intros Hin.
    + apply elem_of_cons in Hin as [|Hin]; [done|].
      by apply list_elem_of_singleton in Hin.
    + by apply list_elem_of_singleton in Hin.
  - intros w' Hstat' Heq. pose proof (main_absent_head w' Hstat') as Hhead.
    rewrite <-Heq, Hmain in Hhead. by destruct (open_idx w).
Qed.

End MainProperties.

(** * The properties on concrete inputs *)

Module Examples.

Import AsciiText.

(** Reads a membership in a concrete list as a choice of its elements. *)
Ltac pick_term H :=
  vm_compute in H;
  repeat (apply elem_of_cons in H as [->|H]);
  [..|by apply elem_of_nil in H].

Example small_cat_built :
  add ∅ [doc 3 "The small dog"; doc 7 "A small cat."; doc 9 "Small."]
  = Some (<["dog" := Slice [3]]> small_cat).
Proof. vm_compute. reflexivity. Qed.

Example scenario_1 :
  (λ idx, search idx "donut") <$>
    add ∅ [doc 0 "A donut on a glass plate. Only the donuts.";
           doc 1 "donut is a donut"]
  = Some (Slice [0; 1]).
Proof. vm_compute. reflexivity. Qed.

Example scenario_4 : search small_cat "small cat" = Slice [7].
Proof. vm_compute. reflexivity. Qed.

(** *** C1 *)

(** The claim as first stated fails on [nil_posting]: its posting lists are
    increasing and both terms of the query are keys, yet [search] returns
    document 1, which is not in the posting list of "wild". *)
Lemma search_nil_posting_counterexample :
  increasing_postings nil_posting ∧
  analyze "wild cat" ≠ [] ∧
  (∀ t, t ∈ analyze "wild cat" → is_Some (nil_posting !! t)) ∧
  search nil_posting "wild cat" = Slice [1] ∧
  ¬ (∀ d, d ∈ elems (search nil_posting "wild cat") ↔
          ∀ t, t ∈ analyze "wild cat" → d ∈ posting nil_posting t).
Proof.
  split_and!.
  - compute_done.
  - by vm_compute.
  - intros t Ht. pick_term Ht; by eexists.
  - vm_compute. reflexivity.
  - intros Hall. destruct (Hall 1) as [Hin _].
    assert (1 ∈ posting nil_posting "wild") as Habs.
    { apply Hin; [|compute_done]. vm_compute. by left. }
    vm_compute in Habs. by apply elem_of_nil in Habs.
Qed.

(** [search_intersection] on Scenario 4. *)
Lemma search_intersection_witness :
  increasing_postings small_cat ∧
  analyze "small cat" ≠ [] ∧
  (∀ t, t ∈ analyze "small cat" → ∃ l, small_cat !! t = Some (Slice l)) ∧
  ∃ r, search small_cat "small cat" = Slice r ∧
       Sorted Z.lt r ∧ NoDup r ∧
       ∀ d, d ∈ r ↔ ∀ t, t ∈ analyze "small cat" → d ∈ posting small_cat t.
Proof.
  assert (increasing_postings small_cat) as H1 by compute_done.
  assert (analyze "small cat" ≠ []) as H2 by (by vm_compute).
  assert (∀ t, t ∈ analyze "small cat" →
               ∃ l, small_cat !! t = Some (Slice l)) as H3.
  { intros t Ht. pick_term Ht; by eexists. }
  split_and!; [done..|].
  exact (search_intersection is_letter is_number to_lower plural_stem
           small_cat "small cat" H1 H2 H3).
Defined.

(** *** C3 *)

(** [add_calls_increasing] on two calls with the ids 0, 1 and then 4. *)
Lemma add_calls_increasing_witness :
  Sorted Z.lt (ID <$> concat two_calls) ∧
  ∃ idx, add_calls ∅ two_calls = Some idx ∧
         increasing_postings idx ∧
         map_Forall (λ _ ids, NoDup (elems ids)) idx.
Proof.
  assert (Sorted Z.lt (ID <$> concat two_calls)) as H1 by compute_done.
  split; [done|].
  exact (add_calls_increasing is_letter is_number to_lower plural_stem
           two_calls H1).
Defined.

(** *** C4 *)

(** [search_absent_term] on a query whose second term is not a key. *)
Lemma search_absent_term_witness :
  "dog" ∈ analyze "small dog cat" ∧
  small_cat !! "dog" = None ∧
  search small_cat "small dog cat" = Nil ∧
  ∃ before t0 after,
    analyze "small dog cat" = before ++ t0 :: after ∧
    Forall (λ t', is_Some (small_cat !! t')) before ∧
    small_cat !! t0 = None ∧
    search_visited small_cat (analyze "small dog cat") = before ++ [t0].
Proof.
  assert ("dog" ∈ analyze "small dog cat") as H1 by compute_done.
  assert (small_cat !! "dog" = None) as H2 by (vm_compute; reflexivity).
  split_and!; [done..| |];
    apply (search_absent_term is_letter is_number to_lower plural_stem
             small_cat "small dog cat" "dog" H1 H2).
Defined.

(** *** C7 *)

(** [search_no_terms] on a query of spaces. *)
Lemma search_no_terms_witness :
  analyze "   " = [] ∧
  search small_cat "   " = Nil ∧ elems (search small_cat "   ") = [].
Proof.
  assert (analyze "   " = []) as H1 by (vm_compute; reflexivity).
  split; [done|].
  exact (search_no_terms is_letter is_number to_lower plural_stem
           small_cat "   " H1).
Defined.

(** *** C6 and C10 *)

(** [add_once] on a document in which "donut" occurs twice. *)
Lemma add_once_witness :
  (∀ t, ID donut_doc ∉ posting donut_before t) ∧
  add donut_before [donut_doc] = Some donut_after ∧
  "donut" ∈ analyze (Text donut_doc) ∧
  count_occ Z.eq_dec (posting donut_after "donut") (ID donut_doc) = 1%nat ∧
  ("glas" ∉ analyze (Text donut_doc)) ∧
  (ID donut_doc ∉ posting donut_after "glas") ∧
  is_Some (add donut_before [donut_doc]).
Proof.
  assert (∀ t, ID donut_doc ∉ posting donut_before t) as H1.
  { intros t. unfold posting, map_get, donut_before.
    destruct (decide (t = "donut")) as [->|?]; [compute_done|].
    rewrite lookup_insert_ne by done.
    destruct (decide (t = "glas")) as [->|?]; [compute_done|].
    rewrite lookup_insert_ne by done. rewrite lookup_empty. simpl.
    apply not_elem_of_nil. }
  assert (add donut_before [donut_doc] = Some donut_after) as H2
    by (vm_compute; reflexivity).
  assert ("donut" ∈ analyze (Text donut_doc)) as H3 by compute_done.
  assert ("glas" ∉ analyze (Text donut_doc)) as H4 by compute_done.
  assert (no_empty_slice donut_before) as H5 by compute_done.
  pose proof (add_once is_letter is_number to_lower plural_stem
                donut_before donut_doc H1) as [Hpost Hret].
  destruct (Hpost donut_after H2) as [Hin Hout].
  split_and!; [done..|exact (Hin "donut" H3)|done|exact (Hout "glas" H4)
              |exact (Hret H5)].
Defined.

(** [add_extends] on the same call. *)
Lemma add_extends_witness :
  add donut_before [donut_doc] = Some donut_after ∧
  donut_before !! "donut" = Some (Slice [0]) ∧
  (∃ ids', donut_after !! "donut" = Some ids' ∧
           [0] `prefix_of` elems ids') ∧
  no_empty_slice donut_before ∧
  is_Some (add donut_before [donut_doc]).
Proof.
  assert (add donut_before [donut_doc] = Some donut_after) as H1
    by (vm_compute; reflexivity).
  assert (donut_before !! "donut" = Some (Slice [0])) as H2
    by (vm_compute; reflexivity).
  assert (elems (Slice [0]) ≠ []) as H3 by done.
  assert (no_empty_slice donut_before) as H4 by compute_done.
  pose proof (add_extends is_letter is_number to_lower plural_stem
                donut_before [donut_doc]) as [Hpre Hret].
  split_and!; [done..|exact (Hpre donut_after "donut" (Slice [0]) H1 H2 H3)
              |done|exact (Hret H4)].
Defined.

(** An allocated slice of length zero makes [add] panic. *)
Example add_empty_slice_panics :
  add (<["donut" := Slice []]> ∅) [donut_doc] = None.
Proof. vm_compute. reflexivity. Qed.

(** *** C5 and C8 *)

Example absent_world_run :
  main absent_world =
    ([log_rebuild; GobEncode absent_index; FmtPrintln (Slice [0])], inr tt).
Proof. vm_compute. reflexivity. Qed.

(** The claim as first stated fails on [create_fails] and on
    [encode_fails]: the index is built, the write fails, and no query is
    run. *)
Lemma main_write_failure_counterexample :
  (stat_idx create_fails = StatNotExist ∧
   (∃ docs, loadDocuments no_digest create_fails = Some docs ∧
            add ∅ docs = Some absent_index) ∧
   create_idx create_fails = false ∧
   main create_fails = ([log_rebuild], inl Panicked) ∧
   ¬ query_ran (main create_fails)) ∧
  (stat_idx encode_fails = StatNotExist ∧
   (∃ docs, loadDocuments no_digest encode_fails = Some docs ∧
            add ∅ docs = Some absent_index) ∧
   encode_idx encode_fails = false ∧
   main encode_fails = ([log_rebuild], inl Panicked) ∧
   ¬ query_ran (main encode_fails)).
Proof.
  split; (split_and!;
    [done
    |eexists; split; [reflexivity|vm_compute; reflexivity]
    |done
    |vm_compute; reflexivity
    |intros [r Hr]; vm_compute in Hr; by apply list_elem_of_singleton in Hr]).
Qed.

(** [main_write_failure] on [encode_fails]. *)
Lemma main_write_failure_witness :
  stat_idx encode_fails = StatNotExist ∧
  loadDocuments no_digest encode_fails
    = Some [doc 0 "A small wild cat."; doc 1 "Small dogs."] ∧
  (create_idx encode_fails = false ∨ encode_idx encode_fails = false) ∧
  main encode_fails = ([log_rebuild], inl Panicked) ∧
  ¬ query_ran (main encode_fails).
Proof.
  assert (stat_idx encode_fails = StatNotExist) as H1 by reflexivity.
  assert (loadDocuments no_digest encode_fails
          = Some [doc 0 "A small wild cat."; doc 1 "Small dogs."]) as H2
    by reflexivity.
  assert (create_idx encode_fails = false ∨ encode_idx encode_fails = false)
    as H3 by (right; reflexivity).
  split_and!; [done..| |];
    apply (main_write_failure is_letter is_number to_lower plural_stem
             no_digest encode_fails _ H1 H2 H3).
Defined.

(** The claim as first stated fails on [unreadable] and on [corrupt]: each
    run differs from the run of the same world with the file absent, the
    first in how it ends, the second in the result that it prints. *)
Lemma main_corrupt_counterexample :
  (stat_idx unreadable = StatOk ∧ open_idx unreadable = false) ∧
  main unreadable = ([log_exists], inl Panicked) ∧
  main unreadable ≠ main (with_stat StatNotExist unreadable) ∧
  decode_failed corrupt = true ∧
  main corrupt = ([log_exists; FmtPrintln Nil], inr tt) ∧
  main (with_stat StatNotExist corrupt)
    = ([log_rebuild; GobEncode absent_index; FmtPrintln (Slice [0])], inr tt) ∧
  main corrupt ≠ main (with_stat StatNotExist corrupt).
Proof.
  split_and!; [done|done|vm_compute; reflexivity| |done
              |vm_compute; reflexivity|vm_compute; reflexivity|].
  - intros Heq. apply (f_equal outcome) in Heq. vm_compute in Heq.
    discriminate.
  - intros Heq. apply (f_equal (λ p, head (trace p))) in Heq.
    vm_compute in Heq. discriminate.
Qed.

(** [main_existing_index] on [unreadable]. *)
Lemma main_existing_index_witness :
  stat_idx unreadable = StatOk ∧
  open_idx unreadable = false ∧
  stat_idx absent_world = StatNotExist ∧
  main unreadable = ([log_exists], inl Panicked) ∧
  ¬ query_ran (main unreadable) ∧
  (GobEncode absent_index ∉ trace (main unreadable)) ∧
  main unreadable ≠ main absent_world.
Proof.
  assert (stat_idx unreadable = StatOk) as H1 by reflexivity.
  assert (open_idx unreadable = false) as H2 by reflexivity.
  assert (stat_idx absent_world = StatNotExist) as H3 by reflexivity.
  pose proof (main_existing_index is_letter is_number to_lower plural_stem
                no_digest unreadable H1) as (Hopen & Henc & Hdiff).
  destruct (Hopen H2) as [Hrun Hquery].
  split_and!; [done..|exact (Henc absent_index)|exact (Hdiff absent_world H3)].
Defined.

End Examples.


(** * Further properties *)

(** ** Increasing lists are determined by their elements *)

Lemma increasing_ext (l k : list Z) :
  StronglySorted Z.lt l → StronglySorted Z.lt k →
  (∀ d, d ∈ l ↔ d ∈ k) → l = k.
Proof.
  intros Hl Hk Hin. apply (StronglySorted_unique_strong Z.lt); [|done..|].
  - intros x y _ _ Hxy Hyx. lia.
  - apply NoDup_Permutation; [by apply increasing_NoDup..|done].
Qed.

Lemma increasing_filter (P : Z → Prop) `{!∀ x, Decision (P x)} (l : list Z) :
  StronglySorted Z.lt l → StronglySorted Z.lt (filter P l).
Proof. apply sublist_increasing, sublist_filter. Qed.

(** ** More on [intersection] *)

Lemma intersection_from_sublist_r (a b : list Z) :
  intersection_from a b `sublist_of` b.
Proof.
  revert b. induction a as [|x a IHa]; intros b.
  { destruct b; apply sublist_nil_l. }
  induction b as [|y b IHb]; [done|].
  rewrite intersection_from_cons.
  destruct (Z.ltb_spec x y) as [Hlt|Hge]; [apply IHa|].
  destruct (Z.gtb_spec x y) as [Hgt|Hle]; [by apply sublist_cons|].
  assert (x = y) as -> by lia. by apply sublist_skip.
Qed.

Lemma intersection_from_comm (a b : list Z) :
  intersection_from a b = intersection_from b a.
Proof.
  revert b. induction a as [|x a IHa]; intros b.
  { by destruct b. }
  induction b as [|y b IHb]; [done|].
  rewrite !intersection_from_cons.
  destruct (Z.ltb_spec x y) as [Hlt|Hge].
  - destruct (Z.ltb_spec y x) as [?|_]; [lia|].
    destruct (Z.gtb_spec y x) as [_|?]; [|lia]. apply IHa.
  - destruct (Z.gtb_spec x y) as [Hgt|Hle].
    + destruct (Z.ltb_spec y x) as [_|?]; [|lia]. apply IHb.
    + assert (x = y) as -> by lia. rewrite Z.ltb_irrefl.
      destruct (Z.gtb_spec y y) as [?|_]; [lia|]. by rewrite IHa.
Qed.

(** X1.  Whatever its arguments, [intersection] returns an allocated slice
    whose elements are taken in order from [a] and, as well, in order from
    [b]; so its length never exceeds the capacity [maxLen] with which the
    result is made, nor the length of the shorter argument. *)
Theorem intersection_sublists (a b : slice) :
  ∃ r, intersection a b = Slice r ∧
       r `sublist_of` elems a ∧ r `sublist_of` elems b ∧
       (length r ≤ length (elems a) `min` length (elems b))%nat.
Proof.
  exists (intersection_from (elems a) (elems b)).
  pose proof (intersection_from_sublist (elems a) (elems b)) as Ha.
  pose proof (intersection_from_sublist_r (elems a) (elems b)) as Hb.
  split_and!; [done..|].
  apply sublist_length in Ha. apply sublist_length in Hb. lia.
Qed.

(** X2.  On strictly increasing arguments [intersection] keeps exactly the
    elements of [a] that are in [b]. *)
Theorem intersection_filter (a b : slice) :
  Sorted Z.lt (elems a) → Sorted Z.lt (elems b) →
  elems (intersection a b) = filter (λ d, d ∈ elems b) (elems a).
Proof.
  intros Ha%increasing_strongly Hb%increasing_strongly.
  apply increasing_ext.
  - by apply intersection_increasing.
  - by apply increasing_filter.
  - intros d. rewrite list_elem_of_filter.
    rewrite (intersection_from_elem_of _ _ d Ha Hb). tauto.
Qed.

(** X3.  [intersection] is symmetric in its arguments, on all inputs: the
    scan advances the side with the smaller value, whichever it is. *)
Theorem intersection_comm (a b : slice) :
  intersection a b = intersection b a.
Proof. unfold intersection. by rewrite intersection_from_comm. Qed.

(** X4.  A slice intersected with itself gives its own elements back, in
    an allocated slice, whether or not they are increasing. *)
Theorem intersection_self (a : slice) :
  intersection a a = Slice (elems a).
Proof.
  unfold intersection. f_equal.
  induction (elems a) as [|x l IH]; [done|].
  rewrite intersection_from_cons, Z.ltb_irrefl.
  destruct (Z.gtb_spec x x) as [?|_]; [lia|]. by rewrite IH.
Qed.

(** ** The analyzer *)

Lemma flush_field_tokens (f : ascii → bool) (cur : list ascii) :
  Forall (λ c, f c = false) cur →
  Forall (λ tok, tok ≠ EmptyString ∧
                 Forall (λ c, f c = false) (list_ascii_of_string tok))
         (flush_field cur).
Proof.
  intros Hcur. destruct cur as [|c cur]; [constructor|].
  unfold flush_field. repeat constructor.
  - intros Hempty. apply (f_equal list_ascii_of_string) in Hempty.
    rewrite list_ascii_of_string_of_list_ascii in Hempty. simpl in Hempty.
    by destruct (rev cur).
  - rewrite list_ascii_of_string_of_list_ascii. apply Forall_forall.
    intros c' Hc'%list_elem_of_In%in_rev%list_elem_of_In.
    rewrite Forall_forall in Hcur. by apply Hcur.
Qed.

Lemma fields_loop_tokens (f : ascii → bool) (s : string) (cur : list ascii) :
  Forall (λ c, f c = false) cur →
  Forall (λ tok, tok ≠ EmptyString ∧
                 Forall (λ c, f c = false) (list_ascii_of_string tok))
         (fields_loop f s cur).
Proof.
  revert cur. induction s as [|c s IH]; intros cur Hcur; simpl.
  { by apply flush_field_tokens. }
  destruct (f c) eqn:Hc.
  - apply Forall_app. split; [by apply flush_field_tokens|].
    apply IH. constructor.
  - apply IH. by constructor.
Qed.

Lemma fields_loop_separator (f : ascii → bool) (s1 s2 : string) (sep : ascii)
    (cur : list ascii) :
  f sep = true →
  fields_loop f (String.append s1 (String sep s2)) cur =
    fields_loop f s1 cur ++ fields_loop f s2 [].
Proof.
  intros Hsep. revert cur. induction s1 as [|c s1 IH]; intros cur; simpl.
  { by rewrite Hsep. }
  destruct (f c); [|apply IH]. by rewrite IH, (assoc_L (++)).
Qed.

Section AnalyzerProperties.

Variable IsLetter IsNumber : ascii → bool.
Variable lower : ascii → ascii.
Variable Stem : string → string.

Local Abbreviation tokenize := (tokenize IsLetter IsNumber).
Local Abbreviation analyze := (analyze IsLetter IsNumber lower Stem).

(** X5.  Every token that [tokenize] returns is non-empty and is made of
    letters and numbers only. *)
Theorem tokenize_tokens (text : string) :
  Forall (λ tok, tok ≠ EmptyString ∧
                 Forall (λ c, IsLetter c || IsNumber c = true)
                        (list_ascii_of_string tok))
         (tokenize text).
Proof.
  unfold tokenize, FieldsFunc.
  eapply Forall_impl; [apply fields_loop_tokens; constructor|].
  simpl. intros tok [Hne Hchars]. split; [done|].
  eapply Forall_impl; [exact Hchars|]. simpl. intros c.
  by destruct (IsLetter c), (IsNumber c).
Qed.

(** X6.  A character that is neither a letter nor a number splits the
    analysis: the terms of a text around it are the terms of the part
    before it followed by the terms of the part after it. *)
Theorem analyze_separator (s1 s2 : string) (sep : ascii) :
  IsLetter sep = false → IsNumber sep = false →
  analyze (String.append s1 (String sep s2)) = analyze s1 ++ analyze s2.
Proof.
  intros Hl Hn. unfold analyze, tokenize, FieldsFunc.
  rewrite fields_loop_separator by (by rewrite Hl, Hn).
  unfold stemmerFilter, stopwordFilter, lowercaseFilter.
  by rewrite map_app, filter_app, map_app.
Qed.

(** X20.  The terms of a text are the stems of its lowercased tokens, the
    tokens whose lowercased form is one of the ten stopwords being dropped
    before stemming; there are at most as many terms as tokens. *)
Theorem analyze_terms (text : string) :
  (∀ t, t ∈ analyze text ↔
        ∃ tok, tok ∈ tokenize text ∧
               (ToLower lower tok ∉
                  ["a"; "and"; "be"; "have"; "i"; "in"; "of"; "that"; "the";
                   "to"]%string) ∧
               t = Stem (ToLower lower tok)) ∧
  (length (analyze text) ≤ length (tokenize text))%nat.
Proof.
  unfold analyze, stemmerFilter, stopwordFilter, lowercaseFilter. split.
  - intros t. rewrite list_elem_of_In, in_map_iff. split.
    + intros (low & <- & Hlow%list_elem_of_In).
      apply list_elem_of_filter in Hlow as [Hstop Hlow].
      apply list_elem_of_In, in_map_iff in Hlow as (tok & <- & Htok).
      exists tok. split_and!; [by apply list_elem_of_In| |done].
      intros Hin. apply Hstop. unfold stopwords.
      by apply elem_of_list_to_set.
    + intros (tok & Htok & Hstop & ->).
      exists (ToLower lower tok). split; [done|].
      apply list_elem_of_In, list_elem_of_filter. split.
      * intros Hin. apply Hstop. unfold stopwords in Hin.
        by apply elem_of_list_to_set in Hin.
      * apply list_elem_of_In, in_map. by apply list_elem_of_In.
  - rewrite length_map.
    etrans; [apply length_filter|]. by rewrite length_map.
Qed.

End AnalyzerProperties.

(** ** More on the inner loop of [add] *)

(** Tokens whose posting lists already end in [id] are skipped. *)
Lemma add_tokens_skip (id : Z) (tokens : list string) (idx : index) :
  (∀ t, t ∈ tokens → last (posting idx t) = Some id) →
  add_tokens id idx tokens = Some idx.
Proof.
  induction tokens as [|token tokens IH]; intros Hlast; [done|]. simpl.
  assert (add_token id idx token = Some idx) as ->.
  { specialize (Hlast token (list_elem_of_here _ _)).
    unfold add_token, last_elem. unfold posting in Hlast.
    destruct (map_get idx token) as [|l]; [done|]. simpl in *.
    rewrite Hlast. by rewrite Z.eqb_refl. }
  apply IH. intros t Ht. apply Hlast. by right.
Qed.

(** A step neither makes nor removes an allocated slice of length zero. *)
Lemma add_token_empty_slice (id : Z) (idx idx' : index) (token t : string) :
  add_token id idx token = Some idx' →
  idx' !! t = Some (Slice []) ↔ idx !! t = Some (Slice []).
Proof.
  intros Hstep.
  assert (idx !! token ≠ Some (Slice [])) as Hne.
  { intros Hempty%(add_token_panics id). congruence. }
  apply add_token_cases in Hstep as [[-> _]|[-> _]]; [done|].
  destruct (decide (t = token)) as [->|Hneq].
  - rewrite lookup_insert_eq. split; [|done].
    intros [= Hnil]. by destruct (posting idx token).
  - by rewrite lookup_insert_ne.
Qed.

Lemma add_tokens_empty_slice (id : Z) (tokens : list string)
    (idx idx' : index) (t : string) :
  add_tokens id idx tokens = Some idx' →
  idx' !! t = Some (Slice []) ↔ idx !! t = Some (Slice []).
Proof.
  revert idx. induction tokens as [|token tokens IH]; intros idx; simpl.
  { by intros [= <-]. }
  destruct (add_token id idx token) as [idx1|] eqn:Hstep; [|done].
  intros Hrest. rewrite (IH _ Hrest). by eapply add_token_empty_slice.
Qed.

(** The loop panics exactly when one of its tokens is mapped to an
    allocated slice of length zero. *)
Lemma add_tokens_panics (id : Z) (tokens : list string) (idx : index) :
  add_tokens id idx tokens = None ↔
  ∃ t, t ∈ tokens ∧ idx !! t = Some (Slice []).
Proof.
  revert idx. induction tokens as [|token tokens IH]; intros idx; simpl.
  { split; [done|]. by intros (t & ?%elem_of_nil & _). }
  destruct (add_token id idx token) as [idx1|] eqn:Hstep.
  - rewrite IH. split; intros (t & Ht & Hempty).
    + exists t. split; [by right|]. by rewrite <-(add_token_empty_slice _ _ _ _ t Hstep).
    + apply elem_of_cons in Ht as [->|Ht].
      * apply (add_token_panics id) in Hempty. congruence.
      * exists t. split; [done|].
        by rewrite (add_token_empty_slice _ _ _ _ t Hstep).
  - split; [|done]. intros _. exists token. split; [by left|].
    by apply (add_token_panics id).
Qed.

(** The keys after the loop: the keys before it and the tokens. *)
Lemma add_tokens_keys (id : Z) (tokens : list string) (idx idx' : index)
    (t : string) :
  add_tokens id idx tokens = Some idx' →
  is_Some (idx' !! t) ↔ is_Some (idx !! t) ∨ t ∈ tokens.
Proof.
  intros Hadd. destruct (add_tokens_step _ _ _ _ t Hadd) as (Hstep & Hin & Hout).
  split.
  - intros Hkey. destruct (decide (t ∈ tokens)) as [|Hnot]; [by right|left].
    by rewrite <-(Hout Hnot).
  - intros [Hkey|Ht].
    + by apply (token_step_prefix _ _ _ _ Hstep).
    + specialize (Hin Ht). unfold posting, map_get in Hin.
      destruct (idx' !! t); [by eexists|done].
Qed.

(** The posting lists after the loop, for an id that is in none of them
    before it. *)
Lemma add_tokens_postings (id : Z) (tokens : list string) (idx idx' : index)
    (t : string) :
  id ∉ posting idx t →
  add_tokens id idx tokens = Some idx' →
  posting idx' t =
    posting idx t ++ (if decide (t ∈ tokens) then [id] else []).
Proof.
  intros Hfresh Hadd.
  destruct (add_tokens_step _ _ _ _ t Hadd) as (Hstep & Hin & Hout).
  destruct (decide (t ∈ tokens)) as [Ht|Ht].
  - specialize (Hin Ht). destruct Hstep as [Heq|[Heq _]].
    + destruct Hfresh. apply last_Some_elem_of.
      unfold posting, map_get in *. by rewrite <-Heq.
    + unfold posting at 1, map_get. by rewrite Heq.
  - unfold posting, map_get. rewrite (Hout Ht). by rewrite app_nil_r.
Qed.

(** ** More on [add] *)

Section MoreAddProperties.

Variable IsLetter IsNumber : ascii → bool.
Variable lower : ascii → ascii.
Variable Stem : string → string.

Local Abbreviation analyze := (analyze IsLetter IsNumber lower Stem).
Local Abbreviation add_doc := (add_doc IsLetter IsNumber lower Stem).
Local Abbreviation add := (add IsLetter IsNumber lower Stem).
Local Abbreviation add_calls := (add_calls IsLetter IsNumber lower Stem).

(** The documents of [docs] that contain the term [t]. *)
Local Abbreviation containing t docs :=
  (filter (λ d : document, t ∈ analyze (Text d)) docs).

(** X7.  How documents are grouped into calls does not matter: two
    sequences of calls that supply the same documents in the same order
    have the same effect. *)
Theorem add_calls_regroup (idx : index) (calls1 calls2 : list (list document)) :
  concat calls1 = concat calls2 →
  add_calls idx calls1 = add_calls idx calls2.
Proof.
  intros Heq.
  rewrite !(add_calls_concat IsLetter IsNumber lower Stem). by rewrite Heq.
Qed.

(** X8.  [add] leaves the entry of a term alone when the term is in the
    analyzed text of none of the documents: the key stays absent or keeps
    its posting list. *)
Theorem add_frame (idx idx' : index) (docs : list document) (t : string) :
  add idx docs = Some idx' →
  (∀ d, d ∈ docs → t ∉ analyze (Text d)) →
  idx' !! t = idx !! t.
Proof.
  revert idx. induction docs as [|doc docs IH]; intros idx; simpl.
  { by intros [= <-]. }
  unfold add_doc.
  destruct (add_tokens (ID doc) idx (analyze (Text doc))) as [idx1|] eqn:Hdoc;
    [|done].
  intros Hrest Hnot. rewrite (IH _ Hrest).
  - destruct (add_tokens_step _ _ _ _ t Hdoc) as (_ & _ & Hout).
    apply Hout, Hnot. by left.
  - intros d Hd. apply Hnot. by right.
Qed.

(** X9.  After [add], a term is a key of the index exactly when it was one
    before or it is in the analyzed text of one of the documents. *)
Theorem add_keys (idx idx' : index) (docs : list document) (t : string) :
  add idx docs = Some idx' →
  is_Some (idx' !! t) ↔
    is_Some (idx !! t) ∨ ∃ d, d ∈ docs ∧ t ∈ analyze (Text d).
Proof.
  revert idx. induction docs as [|doc docs IH]; intros idx; simpl.
  { intros [= <-]. split; [by left|]. by intros [?|(d & ?%elem_of_nil & _)]. }
  unfold add_doc.
  destruct (add_tokens (ID doc) idx (analyze (Text doc))) as [idx1|] eqn:Hdoc;
    [|done].
  intros Hrest. rewrite (IH _ Hrest), (add_tokens_keys _ _ _ _ t Hdoc). split.
  - intros [[Hkey|Ht]|(d & Hd & Ht)]; [by left| |].
    + right. exists doc. split; [by left|done].
    + right. exists d. split; [by right|done].
  - intros [Hkey|(d & [->|Hd]%elem_of_cons & Ht)].
    + by left; left.
    + by left; right.
    + right. by exists d.
Qed.

(** X10.  A document that follows one with the same id and brings no new
    term is skipped entirely ("don't add same ID twice"): the index is the
    one left by the first document. *)
Theorem add_same_id (idx : index) (D D' : document) :
  ID D' = ID D →
  analyze (Text D') ⊆ analyze (Text D) →
  add idx [D; D'] = add idx [D].
Proof.
  intros Hid Hsub. simpl. unfold add_doc.
  destruct (add_tokens (ID D) idx (analyze (Text D))) as [idx1|] eqn:Hdoc;
    [|done].
  rewrite Hid, add_tokens_skip; [done|].
  intros t Ht. destruct (add_tokens_step _ _ _ _ t Hdoc) as (_ & Hin & _).
  by apply Hin, Hsub.
Qed.

(** X11.  [add] panics exactly when a term of one of the documents is
    mapped, in the index it is called on, to an allocated slice of length
    zero. *)
Theorem add_panics (idx : index) (docs : list document) :
  add idx docs = None ↔
  ∃ d t, d ∈ docs ∧ t ∈ analyze (Text d) ∧ idx !! t = Some (Slice []).
Proof.
  revert idx. induction docs as [|doc docs IH]; intros idx; simpl.
  { split; [done|]. by intros (d & t & ?%elem_of_nil & _). }
  unfold add_doc.
  destruct (add_tokens (ID doc) idx (analyze (Text doc))) as [idx1|] eqn:Hdoc.
  - rewrite IH. split; intros (d & t & Hd & Ht & Hempty).
    + exists d, t. split_and!; [by right|done|].
      by rewrite <-(add_tokens_empty_slice _ _ _ _ t Hdoc).
    + apply elem_of_cons in Hd as [->|Hd].
      * assert (add_tokens (ID doc) idx (analyze (Text doc)) = None) as Hnone
          by (apply add_tokens_panics; eauto).
        congruence.
      * exists d, t. split_and!; [done..|].
        by rewrite (add_tokens_empty_slice _ _ _ _ t Hdoc).
  - split; [|done]. intros _.
    apply add_tokens_panics in Hdoc as (t & Ht & Hempty).
    exists doc, t. split_and!; [by left|done..].
Qed.

(** The posting lists after [add] of documents with distinct ids that are
    in no posting list yet. *)
Lemma add_postings_from (idx : index) (docs : list document) :
  no_empty_slice idx →
  NoDup (ID <$> docs) →
  (∀ d t, d ∈ docs → ID d ∉ posting idx t) →
  ∃ idx', add idx docs = Some idx' ∧
          no_empty_slice idx' ∧
          ∀ t, posting idx' t = posting idx t ++ (ID <$> containing t docs).
Proof.
  revert idx. induction docs as [|doc docs IH]; intros idx Hne Hdup Hfresh.
  { exists idx. split_and!; [done..|]. intros t. by rewrite app_nil_r. }
  rewrite fmap_cons in Hdup. apply NoDup_cons in Hdup as [Hdoc Hdup].
  simpl. unfold add_doc.
  destruct (add_tokens_returns (ID doc) (analyze (Text doc)) idx Hne)
    as [idx1 Hadd].
  rewrite Hadd.
  assert (∀ t, posting idx1 t =
               posting idx t ++
               (if decide (t ∈ analyze (Text doc)) then [ID doc] else []))
    as Hpost1.
  { intros t. apply add_tokens_postings; [|done]. apply Hfresh. by left. }
  destruct (IH idx1) as (idx' & Hrest & Hne' & Hpost); [|done| |].
  - by eapply add_tokens_no_empty_slice.
  - intros d t Hd. rewrite Hpost1. apply not_elem_of_app. split.
    + apply Hfresh. by right.
    + destruct (decide (t ∈ analyze (Text doc))); [|apply not_elem_of_nil].
      intros Heq%list_elem_of_singleton. apply Hdoc. rewrite <-Heq.
      by apply list_elem_of_fmap_2.
  - exists idx'. split_and!; [done..|]. intros t.
    rewrite Hpost, Hpost1, <-(assoc_L (++)). f_equal.
    destruct (decide (t ∈ analyze (Text doc))) as [Ht|Ht].
    + by rewrite filter_cons_True.
    + by rewrite filter_cons_False.
Qed.

(** X12.  Called on the empty index with documents of distinct ids, [add]
    returns the inverted index of the documents: the posting list of each
    term lists, in the order of the documents, the ids of those whose
    analyzed text contains the term. *)
Theorem add_inverted_index (docs : list document) :
  NoDup (ID <$> docs) →
  ∃ idx, add ∅ docs = Some idx ∧
         ∀ t, posting idx t = ID <$> containing t docs.
Proof.
  intros Hdup.
  destruct (add_postings_from ∅ docs) as (idx & Hadd & Hne & Hpost);
    [apply map_Forall_empty|done| |].
  { intros d t _. rewrite posting_absent by apply lookup_empty.
    apply not_elem_of_nil. }
  exists idx. split; [done|].
  intros t. rewrite Hpost. by rewrite posting_absent by apply lookup_empty.
Qed.

End MoreAddProperties.

(** ** More on [search] *)

Lemma search_loop_absent (idx : index) (tokens : list string) (t : string)
    (r : slice) :
  t ∈ tokens → idx !! t = None → search_loop idx r tokens = Nil.
Proof.
  intros Hin Hnone. revert r.
  induction tokens as [|t' tokens IH]; intros r; [by apply elem_of_nil in Hin|].
  simpl. destruct (idx !! t') as [ids|] eqn:Ht'; [|done].
  apply elem_of_cons in Hin as [->|Hin]; [congruence|].
  destruct (is_nil r); by apply IH.
Qed.

(** Once the running result is allocated it stays allocated, as long as
    the tokens are keys. *)
Lemma search_loop_stays_allocated (idx : index) (tokens : list string)
    (l : list Z) :
  Forall (λ t, is_Some (idx !! t)) tokens →
  ∃ r, search_loop idx (Slice l) tokens = Slice r.
Proof.
  revert l. induction tokens as [|t tokens IH]; intros l Hkeys; [by eexists|].
  apply Forall_cons in Hkeys as [[ids Ht] Hkeys]. simpl. rewrite Ht.
  by apply IH.
Qed.

(** The loop of [search] on a non-empty list of tokens that are all mapped
    to allocated posting lists. *)
Lemma search_loop_tokens (idx : index) (tokens : list string) :
  increasing_postings idx →
  tokens ≠ [] →
  (∀ t, t ∈ tokens → ∃ l, idx !! t = Some (Slice l)) →
  ∃ r, search_loop idx Nil tokens = Slice r ∧
       StronglySorted Z.lt r ∧
       ∀ d, d ∈ r ↔ ∀ t, t ∈ tokens → d ∈ posting idx t.
Proof.
  intros Hidx Hne Hkeys. destruct tokens as [|t tokens]; [done|].
  destruct (Hkeys t) as [l Ht]; [by left|]. simpl. rewrite Ht.
  assert (StronglySorted Z.lt l) as Hl
    by (apply increasing_strongly; exact (Hidx t _ Ht)).
  destruct (search_loop_allocated idx tokens l Hidx Hl) as (r & Hr & Hs & Hin).
  { apply Forall_forall. intros t' Ht'.
    destruct (Hkeys t') as [l' ->]; [by right|]. by eexists. }
  exists r. split_and!; [done..|]. intros d. rewrite Hin.
  assert (posting idx t = l) as Hpost by by rewrite (posting_lookup _ _ _ Ht).
  split.
  - intros [Hdl Hrest] t' [->|Ht']%elem_of_cons; [by rewrite Hpost|].
    by apply Hrest.
  - intros Hall. split.
    + rewrite <-Hpost. apply Hall. by left.
    + intros t' Ht'. apply Hall. by right.
Qed.

(** Documents of a list with distinct ids are told apart by their ids. *)
Lemma distinct_ids (docs : list document) (d1 d2 : document) :
  NoDup (ID <$> docs) → d1 ∈ docs → d2 ∈ docs → ID d1 = ID d2 → d1 = d2.
Proof.
  induction docs as [|d docs IH]; [by intros _ ?%elem_of_nil|].
  rewrite fmap_cons. intros [Hd Hdup]%NoDup_cons.
  intros [->|H1]%elem_of_cons [->|H2]%elem_of_cons Heq; [done| | |by apply IH].
  - destruct Hd. rewrite Heq. by apply list_elem_of_fmap_2.
  - destruct Hd. rewrite <-Heq. by apply list_elem_of_fmap_2.
Qed.

Section MoreSearchProperties.

Variable IsLetter IsNumber : ascii → bool.
Variable lower : ascii → ascii.
Variable Stem : string → string.

Local Abbreviation analyze := (analyze IsLetter IsNumber lower Stem).
Local Abbreviation add := (add IsLetter IsNumber lower Stem).
Local Abbreviation search := (search IsLetter IsNumber lower Stem).

(** The loop of [search] on the index built from documents with strictly
    increasing ids. *)
Lemma search_loop_built (docs : list document) (idx : index)
    (tokens : list string) :
  Sorted Z.lt (ID <$> docs) →
  add ∅ docs = Some idx →
  tokens ≠ [] →
  elems (search_loop idx Nil tokens) =
    ID <$> filter (λ d, Forall (λ t, t ∈ analyze (Text d)) tokens) docs.
Proof.
  intros Hsorted%increasing_strongly Hadd Hne.
  pose proof (increasing_NoDup _ Hsorted) as Hdup.
  destruct (add_postings_from IsLetter IsNumber lower Stem ∅ docs)
    as (idx0 & Hadd0 & _ & Hpost); [apply map_Forall_empty|done| |].
  { intros d t _. rewrite posting_absent by apply lookup_empty.
    apply not_elem_of_nil. }
  assert (idx0 = idx) as -> by congruence.
  assert (∀ t, posting idx t =
               ID <$> filter (λ d, t ∈ analyze (Text d)) docs) as Hposting.
  { intros t. rewrite Hpost. by rewrite posting_absent by apply lookup_empty. }
  clear Hpost Hadd0.
  assert (nonempty_postings idx) as Hnonempty.
  { eapply (add_nonempty_postings IsLetter IsNumber lower Stem); [|done].
    apply map_Forall_empty. }
  assert (increasing_postings idx) as Hincreasing.
  { intros t ids Ht. apply increasing_strongly.
    rewrite <-(posting_lookup _ _ _ Ht), Hposting.
    eapply sublist_increasing; [|exact Hsorted].
    apply (fmap_sublist ID), sublist_filter. }
  destruct (decide (Forall (λ t, is_Some (idx !! t)) tokens))
    as [Hkeys|Hnot].
  - destruct (search_loop_tokens idx tokens Hincreasing Hne)
      as (r & -> & Hs & Hin).
    { intros t Ht. rewrite Forall_forall in Hkeys.
      destruct (Hkeys t Ht) as [[|l] Hl]; [|by eexists].
      by destruct (Hnonempty t Nil Hl). }
    simpl. apply increasing_ext; [done| |].
    { eapply sublist_increasing; [|exact Hsorted].
      apply (fmap_sublist ID), sublist_filter. }
    intros d. rewrite Hin, list_elem_of_fmap. split.
    + intros Hall. destruct tokens as [|t0 ts] eqn:Hq; [done|].
      assert (d ∈ posting idx t0) as Hd0 by (apply Hall; by left).
      rewrite Hposting in Hd0.
      apply list_elem_of_fmap in Hd0 as (d0 & -> & Hd0).
      apply list_elem_of_filter in Hd0 as [_ Hd0].
      exists d0. split; [done|]. apply list_elem_of_filter. split; [|done].
      apply Forall_forall. intros t Ht. specialize (Hall t Ht).
      rewrite Hposting in Hall.
      apply list_elem_of_fmap in Hall as (dt & Hid & Hdt).
      apply list_elem_of_filter in Hdt as [Hterm Hdt].
      by rewrite (distinct_ids docs d0 dt Hdup Hd0 Hdt Hid).
    + intros (d0 & -> & [Hmatch Hd0]%list_elem_of_filter) t Ht.
      rewrite Hposting. apply list_elem_of_fmap_2, list_elem_of_filter.
      split; [|done]. rewrite Forall_forall in Hmatch. by apply Hmatch.
  - apply not_Forall_Exists in Hnot; [|apply _].
    apply Exists_exists in Hnot as (t & Ht & Hnone). simpl in Hnone.
    apply eq_None_not_Some in Hnone.
    rewrite (search_loop_absent idx _ t Nil Ht Hnone). simpl.
    enough (filter (λ d, Forall (λ t, t ∈ analyze (Text d)) tokens)
                   docs = []) as -> by done.
    apply elem_of_nil_inv.
    intros d [Hmatch Hd]%list_elem_of_filter.
    rewrite Forall_forall in Hmatch. specialize (Hmatch t Ht).
    assert (ID d ∈ posting idx t) as Hin.
    { rewrite Hposting. by apply list_elem_of_fmap_2, list_elem_of_filter. }
    rewrite posting_absent in Hin by done. by apply elem_of_nil in Hin.
Qed.

(** X13.  On an index with increasing posting lists, the order of the terms
    of a query and their repetitions do not matter: two queries with the
    same terms, each mapped to an allocated posting list, have the same
    result. *)
Theorem search_same_terms (idx : index) (text1 text2 : string) :
  increasing_postings idx →
  analyze text1 ≠ [] →
  (∀ t, t ∈ analyze text1 → ∃ l, idx !! t = Some (Slice l)) →
  (∀ t, t ∈ analyze text1 ↔ t ∈ analyze text2) →
  search idx text1 = search idx text2.
Proof.
  unfold search. intros Hidx Hne1 Hkeys1 Hsame.
  assert (analyze text2 ≠ []) as Hne2.
  { destruct (analyze text1) as [|t ts]; [done|]. intros Hnil.
    rewrite Hnil in Hsame. apply (elem_of_nil t), Hsame. by left. }
  destruct (search_loop_tokens idx _ Hidx Hne1 Hkeys1) as (r1 & -> & Hs1 & Hin1).
  destruct (search_loop_tokens idx _ Hidx Hne2) as (r2 & -> & Hs2 & Hin2).
  { intros t Ht. by apply Hkeys1, Hsame. }
  f_equal. apply increasing_ext; [done..|].
  intros d. rewrite Hin1, Hin2. split; intros Hall t Ht; by apply Hall, Hsame.
Qed.

(** X14.  On an index without empty posting lists, [search] returns [nil]
    in two cases only: the query has no term, or one of its terms is not a
    key.  A query whose terms are all keys but share no document returns
    an allocated empty slice instead. *)
Theorem search_nil_iff (idx : index) (text : string) :
  nonempty_postings idx →
  search idx text = Nil ↔
    analyze text = [] ∨ ∃ t, t ∈ analyze text ∧ idx !! t = None.
Proof.
  unfold search. intros Hidx. split.
  - intros Hnil. destruct (analyze text) as [|t tokens] eqn:Htokens; [by left|].
    right. destruct (decide (Forall (λ t, is_Some (idx !! t)) (t :: tokens)))
      as [Hkeys|Hnot].
    + exfalso. apply Forall_cons in Hkeys as [[ids Ht] Hkeys].
      simpl in Hnil. rewrite Ht in Hnil. simpl in Hnil.
      destruct ids as [|l]; [by destruct (Hidx t Nil Ht)|].
      destruct (search_loop_stays_allocated idx tokens l Hkeys) as [r Hr].
      congruence.
    + apply not_Forall_Exists in Hnot; [|apply _].
      apply Exists_exists in Hnot as (t' & Ht' & Hnone). exists t'.
      split; [done|]. simpl in Hnone. by apply eq_None_not_Some.
  - intros [->|(t & Ht & Hnone)]; [done|]. by eapply search_loop_absent.
Qed.

(** X15.  Indexing and searching together: for documents with strictly
    increasing ids indexed from the empty index, and a query with at least
    one term, [search] returns, in order, exactly the ids of the documents
    whose analyzed text contains every term of the analyzed query. *)
Theorem search_built_index (docs : list document) (idx : index)
    (text : string) :
  Sorted Z.lt (ID <$> docs) →
  add ∅ docs = Some idx →
  analyze text ≠ [] →
  elems (search idx text) =
    ID <$> filter (λ d, Forall (λ t, t ∈ analyze (Text d)) (analyze text))
                  docs.
Proof. unfold search. apply search_loop_built. Qed.

End MoreSearchProperties.

(** ** More on [loadDocuments] and [main] *)

Lemma increasing_seq (i n : nat) : Sorted Z.lt (Z.of_nat <$> seq i n).
Proof.
  revert i. induction n as [|n IH]; intros i; [constructor|].
  simpl. constructor; [apply IH|].
  destruct n; simpl; constructor. lia.
Qed.

Section MoreMainProperties.

Variable IsLetter IsNumber : ascii → bool.
Variable lower : ascii → ascii.
Variable Stem : string → string.
Variable Sha1Sum : string → list Z.

Local Abbreviation analyze := (analyze IsLetter IsNumber lower Stem).
Local Abbreviation add := (add IsLetter IsNumber lower Stem).
Local Abbreviation search := (search IsLetter IsNumber lower Stem).
Local Abbreviation loadDocuments := (loadDocuments Sha1Sum).
Local Abbreviation main := (main IsLetter IsNumber lower Stem Sha1Sum).

Lemma loadDocuments_ids (w : world) (docs : list document) :
  loadDocuments w = Some docs →
  ID <$> docs = Z.of_nat <$> seq 0 (length docs).
Proof.
  unfold loadDocuments. destruct (corpus w) as [| | |docs0]; [done..|].
  intros [= <-]. rewrite fmap_imap, length_imap.
  apply (imap_seq_0 docs0 Z.of_nat).
Qed.

(** X16.  [loadDocuments] returns as many documents as were decoded, in
    the same order and with the same title, URL and text; the document at
    position [i] gets the id [i] and the digest of its URL, whatever the
    decoder had put in these fields.  So the ids are strictly increasing
    from 0. *)
Theorem loadDocuments_numbers (w : world) (docs : list document) :
  loadDocuments w = Some docs →
  ∃ docs0, corpus w = Decoded docs0 ∧
    length docs = length docs0 ∧
    (∀ i d, docs !! i = Some d →
       ID d = Z.of_nat i ∧
       ∃ d0, docs0 !! i = Some d0 ∧
             Title d = Title d0 ∧ URL d = URL d0 ∧ Text d = Text d0 ∧
             URLSHA1 d = Sha1Sum (URL d0)) ∧
    Sorted Z.lt (ID <$> docs).
Proof.
  intros Hload. pose proof (loadDocuments_ids w docs Hload) as Hids.
  unfold loadDocuments in Hload.
  destruct (corpus w) as [| | |docs0]; [done..|]. injection Hload as <-.
  exists docs0. split_and!; [done|apply length_imap| |].
  - intros i d Hd. rewrite list_lookup_imap in Hd.
    destruct (docs0 !! i) as [d0|] eqn:Hd0; [|done].
    injection Hd as <-. split; [done|]. by exists d0.
  - rewrite Hids. apply increasing_seq.
Qed.

(** The run of [main], by cases on what the environment answers. *)
Lemma main_cases (w : world) :
  main w =
    match stat_idx w with
    | StatOk =>
        if open_idx w
        then ([log_exists; FmtPrintln (search (decoded w) query)], inr tt)
        else ([log_exists], inl Panicked)
    | StatNotExist =>
        match loadDocuments w with
        | Some docs =>
            match add ∅ docs with
            | Some idx =>
                if create_idx w && encode_idx w
                then ([log_rebuild; GobEncode idx;
                       FmtPrintln (search idx query)], inr tt)
                else ([log_rebuild], inl Panicked)
            | None => ([log_rebuild], inl Panicked)
            end
        | None => ([log_rebuild; LogFatal], inl Exit1)
        end
    | StatError => ([LogFatal], inl Exit1)
    end.
Proof.
  unfold main. cbv zeta. destruct (stat_idx w); [|  |done].
  - by destruct (open_idx w).
  - destruct (loadDocuments w) as [docs|]; [|done]. cbn [bind ret emit].
    destruct (add ∅ docs) as [idx|]; [|done].
    by destruct (create_idx w), (encode_idx w).
Qed.

(** Decides a statement about the events and the end of a concrete run. *)
Local Ltac main_outcome_solver :=
  simpl; repeat setoid_rewrite elem_of_cons;
  repeat setoid_rewrite elem_of_nil; naive_solver.

#[local] Set Warnings "-clear-no-such-hyp".

(** X17.  How a run of [main] ends.  It returns when the index file exists
    and opens, or when it is absent and the corpus is read and the file
    created and encoded.  It exits through [log.Fatal] when the existence
    check fails otherwise, or the file is absent and the corpus cannot be
    read.  It panics when the file exists but does not open, or when it is
    absent, the corpus is read, and the file cannot be created or encoded.
    A query result is printed exactly in the runs that return. *)
Theorem main_outcomes (w : world) :
  (outcome (main w) = inr tt ↔
     (stat_idx w = StatOk ∧ open_idx w = true) ∨
     (stat_idx w = StatNotExist ∧ (∃ docs, loadDocuments w = Some docs) ∧
      create_idx w = true ∧ encode_idx w = true)) ∧
  (outcome (main w) = inl Exit1 ↔
     stat_idx w = StatError ∨
     (stat_idx w = StatNotExist ∧ loadDocuments w = None)) ∧
  (outcome (main w) = inl Panicked ↔
     (stat_idx w = StatOk ∧ open_idx w = false) ∨
     (stat_idx w = StatNotExist ∧ (∃ docs, loadDocuments w = Some docs) ∧
      (create_idx w = false ∨ encode_idx w = false))) ∧
  (query_ran (main w) ↔ outcome (main w) = inr tt).
Proof.
  rewrite main_cases. unfold query_ran, outcome, trace.
  destruct (stat_idx w).
  - destruct (open_idx w); main_outcome_solver.
  - destruct (loadDocuments w) as [docs|]; [|main_outcome_solver].
    destruct (main_build_returns IsLetter IsNumber lower Stem docs)
      as (idx & -> & _).
    destruct (create_idx w), (encode_idx w); main_outcome_solver.
  - main_outcome_solver.
Qed.

#[local] Set Warnings "clear-no-such-hyp".

(** X18.  The run that rebuilds the index.  When the index file is absent,
    the corpus is read and the file is created and encoded, [main] logs the
    rebuild, encodes an index whose posting lists are non-empty and
    strictly increasing, and prints, in increasing order, the positions in
    the corpus of the documents whose analyzed text contains every term of
    the analyzed query (which is assumed to have a term). *)
Theorem main_rebuild_result (w : world) (docs0 : list document) :
  stat_idx w = StatNotExist →
  corpus w = Decoded docs0 →
  create_idx w = true → encode_idx w = true →
  analyze query ≠ [] →
  ∃ idx r,
    main w = ([log_rebuild; GobEncode idx; FmtPrintln r], inr tt) ∧
    nonempty_postings idx ∧ increasing_postings idx ∧
    Sorted Z.lt (elems r) ∧
    ∀ z, z ∈ elems r ↔
         ∃ i d0, z = Z.of_nat i ∧ docs0 !! i = Some d0 ∧
                 Forall (λ t, t ∈ analyze (Text d0)) (analyze query).
Proof.
  intros Hstat Hcorpus Hcreate Hencode Hquery.
  assert (loadDocuments w = Some (imap (number_document Sha1Sum) docs0))
    as Hload by (unfold loadDocuments; by rewrite Hcorpus).
  set (docs := imap (number_document Sha1Sum) docs0) in *.
  destruct (main_build_returns IsLetter IsNumber lower Stem docs)
    as (idx & Hadd & Hnonempty).
  pose proof (loadDocuments_ids w docs Hload) as Hids.
  assert (Sorted Z.lt (ID <$> docs)) as Hsorted
    by (rewrite Hids; apply increasing_seq).
  pose proof (search_loop_built IsLetter IsNumber lower Stem docs idx
                (analyze query) Hsorted Hadd Hquery) as Hsearch.
  exists idx, (search idx query).
  rewrite (main_rebuild IsLetter IsNumber lower Stem Sha1Sum w docs idx
             Hstat Hload Hadd), Hcreate, Hencode.
  fold (search idx query) in Hsearch.
  split_and!; [done|done| | |].
  - destruct (add_bounded IsLetter IsNumber lower Stem 0 ∅ docs)
      as (idx' & b & Hadd' & Hbounded);
      [apply map_Forall_empty|apply map_Forall_empty| | |].
    + apply Forall_forall. intros d Hd.
      apply list_elem_of_lookup in Hd as [i Hd]. unfold docs in Hd.
      rewrite list_lookup_imap in Hd.
      destruct (docs0 !! i); [|done]. injection Hd as <-. simpl. lia.
    + by apply increasing_strongly.
    + assert (idx' = idx) as -> by congruence.
      by apply (bounded_postings_increasing b).
  - rewrite Hsearch. apply increasing_strongly.
    eapply sublist_increasing; [|by apply increasing_strongly].
    apply (fmap_sublist ID), sublist_filter.
  - intros z. rewrite Hsearch, list_elem_of_fmap. split.
    + intros (d & -> & [Hmatch Hd]%list_elem_of_filter).
      apply list_elem_of_lookup in Hd as [i Hd]. unfold docs in Hd.
      rewrite list_lookup_imap in Hd.
      destruct (docs0 !! i) as [d0|] eqn:Hd0; [|done]. injection Hd as <-.
      by exists i, d0.
    + intros (i & d0 & -> & Hd0 & Hmatch).
      exists (number_document Sha1Sum i d0). split; [done|].
      apply list_elem_of_filter. split; [done|].
      apply list_elem_of_lookup. exists i. unfold docs.
      by rewrite list_lookup_imap, Hd0.
Qed.

End MoreMainProperties.


(** * The further properties on concrete inputs *)

Module MoreExamples.

Import AsciiText.

(** [intersection_filter] on the posting lists of Scenario 4. *)
Lemma intersection_filter_witness :
  Sorted Z.lt (elems (Slice [3; 7; 9])) ∧
  Sorted Z.lt (elems (Slice [7])) ∧
  elems (intersection (Slice [3; 7; 9]) (Slice [7])) =
    filter (λ d, d ∈ elems (Slice [7])) (elems (Slice [3; 7; 9])).
Proof.
  assert (Sorted Z.lt (elems (Slice [3; 7; 9]))) as H1 by compute_done.
  assert (Sorted Z.lt (elems (Slice [7]))) as H2 by compute_done.
  split_and!; [done..|].
  exact (intersection_filter (Slice [3; 7; 9]) (Slice [7]) H1 H2).
Defined.

(** [analyze_separator] on a full stop between two sentences. *)
Lemma analyze_separator_witness :
  is_letter "." = false ∧ is_number "." = false ∧
  analyze (String.append "A donut" (String "." "Only the donuts")) =
    analyze "A donut" ++ analyze "Only the donuts".
Proof.
  assert (is_letter "." = false) as H1 by reflexivity.
  assert (is_number "." = false) as H2 by reflexivity.
  split_and!; [done..|].
  exact (analyze_separator is_letter is_number to_lower plural_stem
           "A donut" "Only the donuts" "." H1 H2).
Defined.

(** [analyze_separators] on punctuation and spaces. *)
Lemma analyze_separators_witness :
  Forall (λ c, is_letter c = false ∧ is_number c = false)
         (list_ascii_of_string " ... !") ∧
  analyze " ... !" = [].
Proof.
  assert (Forall (λ c, is_letter c = false ∧ is_number c = false)
                 (list_ascii_of_string " ... !")) as H1
    by (repeat constructor).
  split; [done|].
  exact (analyze_separators is_letter is_number to_lower plural_stem
           " ... !" H1).
Defined.

(** [add_calls_regroup]: one call of three documents or three calls. *)
Lemma add_calls_regroup_witness :
  concat two_calls = concat [concat two_calls] ∧
  add_calls small_cat two_calls = add_calls small_cat [concat two_calls].
Proof.
  assert (concat two_calls = concat [concat two_calls]) as H1
    by reflexivity.
  split; [done|].
  exact (add_calls_regroup is_letter is_number to_lower plural_stem
           small_cat two_calls [concat two_calls] H1).
Defined.

(** [add_frame] and [add_keys] on the call of the donut document. *)
Lemma add_frame_witness :
  add donut_before [donut_doc] = Some donut_after ∧
  (∀ d, d ∈ [donut_doc] → "glas" ∉ analyze (Text d)) ∧
  donut_after !! "glas" = donut_before !! "glas".
Proof.
  assert (add donut_before [donut_doc] = Some donut_after) as H1
    by (vm_compute; reflexivity).
  assert (∀ d, d ∈ [donut_doc] → "glas" ∉ analyze (Text d)) as H2.
  { intros d ->%list_elem_of_singleton. compute_done. }
  split_and!; [done..|].
  exact (add_frame is_letter is_number to_lower plural_stem
           donut_before donut_after [donut_doc] "glas" H1 H2).
Defined.

Lemma add_keys_witness :
  add donut_before [donut_doc] = Some donut_after ∧
  (is_Some (donut_after !! "i") ↔
     is_Some (donut_before !! "i") ∨
     ∃ d, d ∈ [donut_doc] ∧ "i" ∈ analyze (Text d)).
Proof.
  assert (add donut_before [donut_doc] = Some donut_after) as H1
    by (vm_compute; reflexivity).
  split; [done|].
  exact (add_keys is_letter is_number to_lower plural_stem
           donut_before donut_after [donut_doc] "i" H1).
Defined.

(** [add_same_id] on the donut document followed by [donut_again]. *)
Lemma add_same_id_witness :
  ID donut_again = ID donut_doc ∧
  analyze (Text donut_again) ⊆ analyze (Text donut_doc) ∧
  add donut_before [donut_doc; donut_again] = add donut_before [donut_doc].
Proof.
  assert (ID donut_again = ID donut_doc) as H1 by reflexivity.
  assert (analyze (Text donut_again) ⊆ analyze (Text donut_doc)) as H2.
  { intros t Ht. vm_compute in Ht.
    apply list_elem_of_singleton in Ht as ->. compute_done. }
  split_and!; [done..|].
  exact (add_same_id is_letter is_number to_lower plural_stem
           donut_before donut_doc donut_again H1 H2).
Defined.

(** [add_inverted_index] on the three small documents. *)
Lemma add_inverted_index_witness :
  NoDup (ID <$> small_docs) ∧
  ∃ idx, add ∅ small_docs = Some idx ∧
         ∀ t, posting idx t =
              ID <$> filter (λ d, t ∈ analyze (Text d)) small_docs.
Proof.
  assert (NoDup (ID <$> small_docs)) as H1 by compute_done.
  split; [done|].
  exact (add_inverted_index is_letter is_number to_lower plural_stem
           small_docs H1).
Defined.

(** [search_same_terms] on a query and a reordering of it with a
    repetition. *)
Lemma search_same_terms_witness :
  increasing_postings small_cat ∧
  analyze "small cat" ≠ [] ∧
  (∀ t, t ∈ analyze "small cat" → ∃ l, small_cat !! t = Some (Slice l)) ∧
  (∀ t, t ∈ analyze "small cat" ↔ t ∈ analyze "cat, small cat") ∧
  search small_cat "small cat" = search small_cat "cat, small cat".
Proof.
  assert (increasing_postings small_cat) as H1 by compute_done.
  assert (analyze "small cat" ≠ []) as H2 by (by vm_compute).
  assert (∀ t, t ∈ analyze "small cat" →
               ∃ l, small_cat !! t = Some (Slice l)) as H3.
  { intros t Ht. vm_compute in Ht.
    repeat (apply elem_of_cons in Ht as [->|Ht]);
      [by eexists..|by apply elem_of_nil in Ht]. }
  assert (∀ t, t ∈ analyze "small cat" ↔ t ∈ analyze "cat, small cat")
    as H4.
  { intros t.
    change (analyze "small cat") with ["small"; "cat"]%string.
    change (analyze "cat, small cat") with ["cat"; "small"; "cat"]%string.
    rewrite !elem_of_cons. rewrite elem_of_nil. tauto. }
  split_and!; [done..|].
  exact (search_same_terms is_letter is_number to_lower plural_stem
           small_cat "small cat" "cat, small cat" H1 H2 H3 H4).
Defined.

(** [search_nil_iff] on the index of Scenario 4. *)
Lemma search_nil_iff_witness :
  nonempty_postings small_cat ∧
  (search small_cat "small dog" = Nil ↔
     analyze "small dog" = [] ∨
     ∃ t, t ∈ analyze "small dog" ∧ small_cat !! t = None).
Proof.
  assert (nonempty_postings small_cat) as H1 by compute_done.
  split; [done|].
  exact (search_nil_iff is_letter is_number to_lower plural_stem
           small_cat "small dog" H1).
Defined.

(** [search_built_index] on the three small documents. *)
Lemma search_built_index_witness :
  Sorted Z.lt (ID <$> small_docs) ∧
  add ∅ small_docs = Some small_index ∧
  analyze "small cat" ≠ [] ∧
  elems (search small_index "small cat") =
    ID <$> filter (λ d, Forall (λ t, t ∈ analyze (Text d))
                               (analyze "small cat")) small_docs.
Proof.
  assert (Sorted Z.lt (ID <$> small_docs)) as H1 by compute_done.
  assert (add ∅ small_docs = Some small_index) as H2
    by (vm_compute; reflexivity).
  assert (analyze "small cat" ≠ []) as H3 by (by vm_compute).
  split_and!; [done..|].
  exact (search_built_index is_letter is_number to_lower plural_stem
           small_docs small_index "small cat" H1 H2 H3).
Defined.

(** [loadDocuments_numbers] on the corpus of [absent_world], whose two
    documents both come with the id 0. *)
Lemma loadDocuments_numbers_witness :
  loadDocuments no_digest absent_world
    = Some [doc 0 "A small wild cat."; doc 1 "Small dogs."] ∧
  ∃ docs0, corpus absent_world = Decoded docs0 ∧
    length [doc 0 "A small wild cat."; doc 1 "Small dogs."] = length docs0 ∧
    (∀ i d, [doc 0 "A small wild cat."; doc 1 "Small dogs."] !! i = Some d →
       ID d = Z.of_nat i ∧
       ∃ d0, docs0 !! i = Some d0 ∧
             Title d = Title d0 ∧ URL d = URL d0 ∧ Text d = Text d0 ∧
             URLSHA1 d = no_digest (URL d0)) ∧
    Sorted Z.lt (ID <$> [doc 0 "A small wild cat."; doc 1 "Small dogs."]).
Proof.
  assert (loadDocuments no_digest absent_world
          = Some [doc 0 "A small wild cat."; doc 1 "Small dogs."]) as H1
    by reflexivity.
  split; [done|].
  exact (loadDocuments_numbers no_digest absent_world _ H1).
Defined.

(** [main_rebuild_result] on [absent_world]. *)
Lemma main_rebuild_result_witness :
  stat_idx absent_world = StatNotExist ∧
  corpus absent_world
    = Decoded [doc 0 "A small wild cat."; doc 0 "Small dogs."] ∧
  create_idx absent_world = true ∧ encode_idx absent_world = true ∧
  analyze query ≠ [] ∧
  ∃ idx r,
    main absent_world = ([log_rebuild; GobEncode idx; FmtPrintln r], inr tt) ∧
    nonempty_postings idx ∧ increasing_postings idx ∧
    Sorted Z.lt (elems r) ∧
    ∀ z, z ∈ elems r ↔
         ∃ i d0, z = Z.of_nat i ∧
                 [doc 0 "A small wild cat."; doc 0 "Small dogs."] !! i
                   = Some d0 ∧
                 Forall (λ t, t ∈ analyze (Text d0)) (analyze query).
Proof.
  assert (stat_idx absent_world = StatNotExist) as H1 by reflexivity.
  assert (corpus absent_world
          = Decoded [doc 0 "A small wild cat."; doc 0 "Small dogs."]) as H2
    by reflexivity.
  assert (create_idx absent_world = true) as H3 by reflexivity.
  assert (encode_idx absent_world = true) as H4 by reflexivity.
  assert (analyze query ≠ []) as H5 by (by vm_compute).
  split_and!; [done..|].
  exact (main_rebuild_result is_letter is_number to_lower plural_stem
           no_digest absent_world _ H1 H2 H3 H4 H5).
Defined.

End MoreExamples.
